(** * A model of the MongoDB model facade [ModelAbstract] (src/unnamed/part_000)

    The facade is JavaScript code built on promises.  It is embedded here as:
    - JavaScript values [jsval], with caller-owned objects living on a heap
      so that in-place mutation and aliasing are visible;
    - a state and exception monad [M] over a world that holds the heap, the
      facade's fields, the instrumentation sink, the store and a trace of
      observable events (store calls issued, records handed to the sink);
    - the store driver as an in-memory collection with injected failures.

    A promise is modelled by the state it ends in once every callback that
    was scheduled has run: [Pending] when neither [resolve] nor [reject] was
    ever called. *)

From Stdlib Require Import ZArith NArith List String Ascii Bool Lia.
Import ListNotations.
Open Scope string_scope.
Set Warnings "-register-all".

(** ** JavaScript values *)

(** Error codes of [ModelErrorCodes] (the module is not part of src/; its
    constants are kept symbolic). *)
Inductive model_code := NO_COLLECTION_NAME | ALREADY_EXISTS.

(** Which constructor built an [Error] instance. *)
Inductive err_kind := ModelError | TypeError | DriverError.

Inductive jsval :=
| VUndef
| VNull
| VBool (b : bool)
| VNum (z : Z)                   (** numbers; NaN is not represented *)
| VStr (s : string)
| VCode (c : model_code)         (** a constant of [ModelErrorCodes] *)
| VArr (xs : list jsval)         (** an array, by value *)
| VObj (ps : list (string * jsval))
    (** an object produced by the store driver, by value: the facade only
        reads such objects *)
| VRef (l : nat)                 (** an object on the heap, by reference *)
| VErr (k : err_kind) (msg : jsval) (code : jsval).
    (** an [Error] instance with its [message] and [code] properties *)

(** The heap: the object at location [l] is the [l]-th property list. *)
Definition obj := list (string * jsval).
Definition heap := list obj.

(** JavaScript truthiness ([if (x)], [!x]). *)
Definition truthy (v : jsval) : bool :=
  match v with
  | VUndef | VNull => false
  | VBool b => b
  | VNum z => negb (Z.eqb z 0)
  | VStr s => negb (String.eqb s EmptyString)
  | _ => true
  end.

Definition is_nullish (v : jsval) : bool :=
  match v with VUndef | VNull => true | _ => false end.

(** Decimal notation of numbers, as [String(n)] prints an integer. *)
Fixpoint dec_digits (fuel : nat) (n : N) (acc : string) : string :=
  match fuel with
  | O => acc
  | S fuel' =>
      let d := N.modulo n 10 in
      let c := ascii_of_N (48 + d) in
      let q := N.div n 10 in
      if N.eqb q 0 then String c acc else dec_digits fuel' q (String c acc)
  end.

Definition dec_of_N (n : N) : string := dec_digits (S (N.size_nat n)) n EmptyString.

Definition dec_of_Z (z : Z) : string :=
  match z with
  | Z0 => "0"
  | Zpos p => dec_of_N (Npos p)
  | Zneg p => "-" ++ dec_of_N (Npos p)
  end.

Definition code_name (c : model_code) : string :=
  match c with
  | NO_COLLECTION_NAME => "NO_COLLECTION_NAME"
  | ALREADY_EXISTS => "ALREADY_EXISTS"
  end.

(** [String(v)], as used by [+] on strings and by template literals. *)
Fixpoint to_js_string (v : jsval) : string :=
  match v with
  | VUndef => "undefined"
  | VNull => "null"
  | VBool true => "true"
  | VBool false => "false"
  | VNum z => dec_of_Z z
  | VStr s => s
  | VCode c => code_name c
  | VArr xs =>
      String.concat "," (map (fun x => if is_nullish x then EmptyString else to_js_string x) xs)
  | VObj _ | VRef _ => "[object Object]"
  | VErr _ m _ => "Error: " ++ to_js_string m
  end.

(** ** Heap access *)

Definition lookup_prop (k : string) (o : obj) : jsval :=
  match find (fun p => String.eqb (fst p) k) o with
  | Some (_, v) => v
  | None => VUndef
  end.

Fixpoint set_prop (k : string) (v : jsval) (o : obj) : obj :=
  match o with
  | [] => [(k, v)]
  | (k', v') :: o' => if String.eqb k' k then (k, v) :: o' else (k', v') :: set_prop k v o'
  end.

Definition heap_get (h : heap) (l : nat) : obj := nth l h [].

Fixpoint heap_upd (h : heap) (l : nat) (o : obj) : heap :=
  match h, l with
  | [], _ => []
  | _ :: h', O => o :: h'
  | o' :: h', S l' => o' :: heap_upd h' l' o
  end.

(** A JSON string literal: quote and backslash escaped, control characters
    written as [\u00XX] (or their short forms). *)
Definition chr (n : nat) : string := String (ascii_of_nat n) EmptyString.

Definition hex_digit (n : nat) : string :=
  if Nat.ltb n 10 then chr (48 + n) else chr (87 + n).

Definition json_escape_char (c : ascii) : string :=
  let n := nat_of_ascii c in
  if Nat.eqb n 34 then chr 92 ++ chr 34
  else if Nat.eqb n 92 then chr 92 ++ chr 92
  else if Nat.eqb n 10 then chr 92 ++ "n"
  else if Nat.eqb n 13 then chr 92 ++ "r"
  else if Nat.eqb n 9 then chr 92 ++ "t"
  else if Nat.eqb n 8 then chr 92 ++ "b"
  else if Nat.eqb n 12 then chr 92 ++ "f"
  else if Nat.ltb n 32 then chr 92 ++ "u00" ++ hex_digit (n / 16) ++ hex_digit (n mod 16)
  else String c EmptyString.

Fixpoint json_escape (s : string) : string :=
  match s with
  | EmptyString => EmptyString
  | String c s' => json_escape_char c ++ json_escape s'
  end.

Definition json_quote (s : string) : string := chr 34 ++ json_escape s ++ chr 34.

(** [JSON.stringify]: [None] for [undefined] at the top (JSON.stringify
    returns [undefined]), [Some (inl tt)] when it throws (a cyclic heap
    structure), [Some (inr s)] for the text.  [fuel] bounds the number of
    heap dereferences on a path: an acyclic path visits each location at
    most once, so [length h + 1] dereferences only run out on a cycle. *)
Fixpoint json_val (h : heap) (fuel : nat) (v : jsval) {struct fuel} : option (unit + string) :=
  let fix go (v : jsval) : option (unit + string) :=
    let fix go_list (xs : list jsval) : unit + list string :=
      match xs with
      | [] => inr []
      | x :: xs' =>
          match go x, go_list xs' with
          | Some (inl tt), _ | _, inl tt => inl tt
          | None, inr r => inr ("null" :: r)
          | Some (inr s), inr r => inr (s :: r)
          end
      end in
    let fix go_props (ps : list (string * jsval)) : unit + list string :=
      match ps with
      | [] => inr []
      | (k, x) :: ps' =>
          match go x, go_props ps' with
          | Some (inl tt), _ | _, inl tt => inl tt
          | None, inr r => inr r
          | Some (inr s), inr r => inr ((json_quote k ++ ":" ++ s) :: r)
          end
      end in
    match v with
    | VUndef => None
    | VNull => Some (inr "null")
    | VBool true => Some (inr "true")
    | VBool false => Some (inr "false")
    | VNum z => Some (inr (dec_of_Z z))
    | VStr s => Some (inr (json_quote s))
    | VCode c => Some (inr (json_quote (code_name c)))
    | VArr xs =>
        match go_list xs with
        | inl tt => Some (inl tt)
        | inr r => Some (inr ("[" ++ String.concat "," r ++ "]"))
        end
    | VObj ps =>
        match go_props ps with
        | inl tt => Some (inl tt)
        | inr r => Some (inr ("{" ++ String.concat "," r ++ "}"))
        end
    | VRef l =>
        match fuel with
        | O => Some (inl tt)
        | S fuel' => json_val h fuel' (VObj (heap_get h l))
        end
    | VErr _ _ _ => Some (inr "{}")
    end in
  go v.

Definition json_stringify (h : heap) (v : jsval) : option (unit + string) :=
  json_val h (S (List.length h)) v.

(** A deep copy of a value in which heap objects are replaced by their
    contents, as the driver serializes its arguments; a cycle is cut. *)
Fixpoint snapshot (h : heap) (fuel : nat) (v : jsval) {struct fuel} : jsval :=
  let fix go (v : jsval) : jsval :=
    match v with
    | VArr xs => VArr (map go xs)
    | VObj ps => VObj (map (fun p => (fst p, go (snd p))) ps)
    | VRef l =>
        match fuel with
        | O => VNull
        | S fuel' => snapshot h fuel' (VObj (heap_get h l))
        end
    | _ => v
    end in
  go v.

Definition freeze (h : heap) (v : jsval) : jsval := snapshot h (S (List.length h)) v.

(** Property read on a value that is not on the heap. *)
Definition prop (v : jsval) (k : string) : jsval :=
  match v with
  | VObj ps => lookup_prop k ps
  | VErr _ m c => if String.eqb k "message" then m else if String.eqb k "code" then c else VUndef
  | _ => VUndef
  end.

(** Structural equality of frozen values. *)
Fixpoint jsval_eqb (a b : jsval) : bool :=
  let fix eq_list (xs ys : list jsval) : bool :=
    match xs, ys with
    | [], [] => true
    | x :: xs', y :: ys' => jsval_eqb x y && eq_list xs' ys'
    | _, _ => false
    end in
  let fix eq_props (ps qs : list (string * jsval)) : bool :=
    match ps, qs with
    | [], [] => true
    | (k, x) :: ps', (k', y) :: qs' => String.eqb k k' && jsval_eqb x y && eq_props ps' qs'
    | _, _ => false
    end in
  match a, b with
  | VUndef, VUndef | VNull, VNull => true
  | VBool x, VBool y => Bool.eqb x y
  | VNum x, VNum y => Z.eqb x y
  | VStr x, VStr y => String.eqb x y
  | VCode NO_COLLECTION_NAME, VCode NO_COLLECTION_NAME
  | VCode ALREADY_EXISTS, VCode ALREADY_EXISTS => true
  | VArr xs, VArr ys => eq_list xs ys
  | VObj ps, VObj qs => eq_props ps qs
  | VRef x, VRef y => Nat.eqb x y
  | _, _ => false
  end.

(** ** The store driver

    The calls the facade makes on its collection handle ([this._collection])
    and on a cursor. *)

Record cursor := mkCursor {
  cur_filter : jsval;
  cur_fields : jsval;
  cur_sort : jsval;
  cur_limit : jsval;
  cur_skip : jsval
}.

Inductive store_call :=
| SIndexExists (name : jsval)
| SCreateIndex (fields options : jsval)
| SInsertOne (doc : jsval)
| SFindOne (query options : jsval)
| SFindOneAndUpdate (filter update options : jsval)
| SUpdate (filter data options : jsval)
| SRemove (filter options : jsval)
| SCount (filter : jsval)
| SAggregate (pipeline options : jsval)
| SCursorCount (c : cursor)
| SCursorToArray (c : cursor).

(** How a store call settles: its promise resolves or rejects. *)
Inductive reply := Ok (v : jsval) | Err (v : jsval).

(** An in-memory collection.  The query language is left open: [st_matches]
    decides whether a (frozen) filter selects a document, [st_apply] applies
    an update to a document and [st_order] sorts by a sort specification.
    [st_fail] injects failures: a call for which it returns [Some e] rejects
    with [e] (any value: the driver's promise may reject with anything). *)
Record store := mkStore {
  st_docs : list jsval;
  st_indexes : list string;
  st_clock : Z;
  st_fail : store_call -> option jsval;
  st_matches : jsval -> jsval -> bool;
  st_apply : jsval -> jsval -> jsval;
  st_order : jsval -> list jsval -> list jsval
}.

Definition st_with (s : store) (docs : list jsval) (idx : list string) : store :=
  mkStore docs idx (st_clock s + 1) (st_fail s) (st_matches s) (st_apply s) (st_order s).

(** The store's duplicate-key error (MongoDB error code 11000). *)
Definition dup_key_error : jsval :=
  VErr DriverError (VStr "E11000 duplicate key error") (VNum 11000).

(** Position of the first element satisfying [p]. *)
Fixpoint find_index {A} (p : A -> bool) (xs : list A) : option nat :=
  match xs with
  | [] => None
  | x :: xs' => if p x then Some 0 else option_map S (find_index p xs')
  end.

Fixpoint replace_nth {A} (n : nat) (y : A) (xs : list A) : list A :=
  match xs, n with
  | [], _ => []
  | _ :: xs', O => y :: xs'
  | x :: xs', S n' => x :: replace_nth n' y xs'
  end.

(** [cursor.limit(n)]: 0 (or no limit) means no limit, a negative limit
    counts as its absolute value. *)
Definition apply_limit (lim : jsval) (xs : list jsval) : list jsval :=
  match lim with
  | VNum z => if Z.eqb z 0 then xs else firstn (Z.to_nat (Z.abs z)) xs
  | _ => xs
  end.

Definition apply_skip (sk : jsval) (xs : list jsval) : list jsval :=
  match sk with
  | VNum z => skipn (Z.to_nat z) xs
  | _ => xs
  end.

Definition store_step (s : store) (h : heap) (c : store_call) : store * reply :=
  let docs := st_docs s in
  let idx := st_indexes s in
  let sel f := filter (st_matches s (freeze h f)) docs in
  match st_fail s c with
  | Some e => (st_with s docs idx, Err e)
  | None =>
    match c with
    | SIndexExists (VStr n) => (st_with s docs idx, Ok (VBool (existsb (String.eqb n) idx)))
    | SIndexExists _ => (st_with s docs idx, Ok (VBool false))
    | SCreateIndex _ o =>
        match prop (freeze h o) "name" with
        | VStr n =>
            let idx' := if existsb (String.eqb n) idx then idx else app idx [n] in
            (st_with s docs idx', Ok (VStr n))
        | _ => (st_with s docs idx, Ok VUndef)
        end
    | SInsertOne d =>
        let doc := freeze h d in
        let id := prop doc "_id" in
        if negb (is_nullish id) && existsb (fun d' => jsval_eqb (prop d' "_id") id) docs
        then (st_with s docs idx, Err dup_key_error)
        else (st_with s (app docs [doc]) idx,
              Ok (VObj [("insertedCount", VNum 1); ("ops", VArr [doc])]))
    | SFindOne q _ =>
        (st_with s docs idx, Ok (match sel q with d :: _ => d | [] => VNull end))
    | SFindOneAndUpdate f u o =>
        match find_index (st_matches s (freeze h f)) docs with
        | Some i =>
            let d := nth i docs VNull in
            let d' := st_apply s (freeze h u) d in
            (st_with s (replace_nth i d' docs) idx,
             Ok (if truthy (prop (freeze h o) "returnOriginal") then d else d'))
        | None => (st_with s docs idx, Ok VNull)
        end
    | SUpdate f u _ =>
        match find_index (st_matches s (freeze h f)) docs with
        | Some i =>
            let d' := st_apply s (freeze h u) (nth i docs VNull) in
            (st_with s (replace_nth i d' docs) idx, Ok (VNum 1))
        | None => (st_with s docs idx, Ok (VNum 0))
        end
    | SRemove f _ =>
        let m := st_matches s (freeze h f) in
        (st_with s (filter (fun d => negb (m d)) docs) idx,
         Ok (VNum (Z.of_nat (List.length (filter m docs)))))
    | SCount f => (st_with s docs idx, Ok (VNum (Z.of_nat (List.length (sel f)))))
    | SAggregate p o =>
        (st_with s docs idx, Ok (VObj [("pipeline", freeze h p); ("options", freeze h o)]))
    | SCursorCount cu =>
        (** [cursor.count()] counts every document the filter matches,
            whatever the cursor's limit and skip *)
        (st_with s docs idx, Ok (VNum (Z.of_nat (List.length (sel (cur_filter cu))))))
    | SCursorToArray cu =>
        (st_with s docs idx,
         Ok (VArr (apply_limit (cur_limit cu)
                     (apply_skip (cur_skip cu)
                        (st_order s (freeze h (cur_sort cu)) (sel (cur_filter cu)))))))
    end
  end.

(** ** Instrumentation *)

(** The record a timer delivers to its completion hook. *)
Record record := mkRecord {
  rec_category : string;
  rec_name : string;
  rec_message : jsval;
  rec_duration : Z;
  rec_error : option jsval
}.

(** Observable events: a call issued to the store, a record handed to the
    sink's [log]. *)
Inductive event := EvStore (c : store_call) | EvLog (r : record).

(** [this._debugger]: absent (any falsy value), or an object whose [log]
    property is truthy or not. *)
Inductive sink := NoSink | Sink (has_log : bool).

(** The facade's own fields.  [f_collection] is [this._collection]: [None]
    for [null], [Some n] for the handle [db.collection(n)]. *)
Record facade := mkFacade {
  f_collectionName : jsval;
  f_indexes : option (list jsval);
  f_collection : option string;
  f_debugger : sink
}.

Inductive pstate := Pending | Fulfilled (v : jsval) | Rejected (v : jsval).

(** [w_promise] is the state of the promise the running operation created
    with [new Promise]. *)
Record world := mkWorld {
  w_this : facade;
  w_heap : heap;
  w_store : store;
  w_trace : list event;
  w_promise : pstate
}.

Definition set_this (w : world) (f : facade) : world :=
  mkWorld f (w_heap w) (w_store w) (w_trace w) (w_promise w).
Definition set_heap (w : world) (h : heap) : world :=
  mkWorld (w_this w) h (w_store w) (w_trace w) (w_promise w).
Definition set_promise (w : world) (p : pstate) : world :=
  mkWorld (w_this w) (w_heap w) (w_store w) (w_trace w) p.
Definition emit (w : world) (e : event) : world :=
  mkWorld (w_this w) (w_heap w) (w_store w) (app (w_trace w) [e]) (w_promise w).

(** ** A state and exception monad: [inl e] is a thrown value. *)

Definition M (A : Type) := world -> world * (jsval + A).

Definition ret {A} (a : A) : M A := fun w => (w, inr a).

Definition bind {A B} (m : M A) (k : A -> M B) : M B :=
  fun w => match m w with
           | (w', inl e) => (w', inl e)
           | (w', inr a) => k a w'
           end.

Notation "x <- m ;; k" := (bind m (fun x => k))
  (at level 61, m at next level, right associativity).
Notation "m ;;; k" := (bind m (fun _ => k))
  (at level 61, right associativity).

Definition throw {A} (e : jsval) : M A := fun w => (w, inl e).

Definition try_catch {A} (m : M A) (handler : jsval -> M A) : M A :=
  fun w => match m w with
           | (w', inl e) => handler e w'
           | r => r
           end.

(** A callback's exception that nobody observes (it only rejects the
    promise returned by the last [.catch] of a chain). *)
Definition swallow (m : M unit) : M unit := try_catch m (fun _ => ret tt).

Definition get_world : M world := fun w => (w, inr w).
Definition modify (f : world -> world) : M unit := fun w => (f w, inr tt).

Definition type_error (what : string) : jsval :=
  VErr TypeError (VStr ("Cannot read properties of null (reading '" ++ what ++ "')")) VUndef.

(** [v[k]] *)
Definition get (v : jsval) (k : string) : M jsval :=
  fun w => match v with
           | VUndef | VNull => (w, inl (type_error k))
           | VRef l => (w, inr (lookup_prop k (heap_get (w_heap w) l)))
           | _ => (w, inr (prop v k))
           end.

(** [v[n]] for an index [n] *)
Definition get_index (v : jsval) (n : nat) : M jsval :=
  match v with
  | VArr xs => ret (nth n xs VUndef)
  | VStr s => ret (match String.get n s with
                   | Some c => VStr (String c EmptyString)
                   | None => VUndef
                   end)
  | _ => get v (dec_of_N (N.of_nat n))
  end.

(** [v[k] = x] in strict mode: only heap objects are writable here (values
    kept by value are never written by this code, and writing to a
    primitive throws). *)
Definition put (v : jsval) (k : string) (x : jsval) : M unit :=
  fun w => match v with
           | VRef l =>
               (set_heap w (heap_upd (w_heap w) l (set_prop k x (heap_get (w_heap w) l))), inr tt)
           | _ => (w, inl (type_error k))
           end.

(** [this._json(v)], i.e. [JSON.stringify(v)]. *)
Definition json (v : jsval) : M jsval :=
  fun w => match json_stringify (w_heap w) v with
           | None => (w, inr VUndef)
           | Some (inl _) =>
               (w, inl (VErr TypeError (VStr "Converting circular structure to JSON") VUndef))
           | Some (inr s) => (w, inr (VStr s))
           end.

(** A call through [this._collection]: dereferencing a [null] handle
    throws a [TypeError]. *)
Definition coll_call (method : string) (c : store_call) : M reply :=
  fun w => match f_collection (w_this w) with
           | None => (w, inl (type_error method))
           | Some _ =>
               let (s', r) := store_step (w_store w) (w_heap w) c in
               let w1 := mkWorld (w_this w) (w_heap w) s' (w_trace w) (w_promise w) in
               (emit w1 (EvStore c), inr r)
           end.

(** A call on a cursor. *)
Definition cursor_call (c : store_call) : M reply :=
  fun w => let (s', r) := store_step (w_store w) (w_heap w) c in
           let w1 := mkWorld (w_this w) (w_heap w) s' (w_trace w) (w_promise w) in
           (emit w1 (EvStore c), inr r).

(** [resolve] and [reject] of the current promise: only the first call
    settles it. *)
Definition resolve (v : jsval) : M unit :=
  modify (fun w => match w_promise w with
                   | Pending => set_promise w (Fulfilled v)
                   | _ => w
                   end).

Definition reject (v : jsval) : M unit :=
  modify (fun w => match w_promise w with
                   | Pending => set_promise w (Rejected v)
                   | _ => w
                   end).

(** [new Promise(executor)]: an exception of the executor rejects it.
    The callbacks an executor attaches with [.then]/[.catch] run in this
    model right where they are attached; in every executor below that
    attachment is its last statement, so the order of effects is the one
    of the JavaScript event loop. *)
Definition new_promise (executor : M unit) : M pstate :=
  fun w => let '(w1, r) := executor (set_promise w Pending) in
           let w2 := match r with
                     | inl e => fst (reject e w1)
                     | inr _ => w1
                     end in
           (w2, inr (w_promise w2)).

(** [p.then(onOk).catch(onErr)]: [onErr] also receives what [onOk] throws. *)
Definition then_catch (r : reply) (onOk onErr : jsval -> M unit) : M unit :=
  swallow (match r with
           | Ok v => try_catch (onOk v) onErr
           | Err e => onErr e
           end).

(** [Promise.all]: resolves with every value, or rejects with a failure;
    which one when several fail depends on timing, and this model takes
    the first in issue order. *)
Fixpoint all_replies (rs : list reply) : reply :=
  match rs with
  | [] => Ok (VArr [])
  | Ok v :: rs' =>
      match all_replies rs' with
      | Ok (VArr vs) => Ok (VArr (v :: vs))
      | r => r
      end
  | Err e :: _ => Err e
  end.

(** *** The debug timer ([Debug/Timer]).

    Modelled from the spec: the timer module is not part of src/.  Following
    the spec, [start] records the time, [message] is a mutable field, [stop]
    delivers [{category, name, message, durationMs}] to the completion hook
    and [error(m)] delivers the same record with [error: m].  The clock is the
    store's: time passes while the store works. *)
Record timer := mkTimer {
  tm_category : string;
  tm_name : string;
  tm_start : Z;
  tm_message : jsval
}.

Definition now : M Z := fun w => (w, inr (st_clock (w_store w))).

Definition set_message (t : timer) (m : jsval) : timer :=
  mkTimer (tm_category t) (tm_name t) (tm_start t) m.

(** [_logDebug(data)]: forwards to the sink only if it has a [log]. *)
Definition _logDebug (r : record) : M unit :=
  modify (fun w => match f_debugger (w_this w) with
                   | Sink true => emit w (EvLog r)
                   | _ => w
                   end).

(** [_createTimer(name)]: a started timer whose completion hook is
    [_logDebug]. *)
Definition _createTimer (name : string) : M timer :=
  t <- now ;; ret (mkTimer "mongo" name t VUndef).

Definition timer_stop (t : timer) : M unit :=
  t1 <- now ;;
  _logDebug (mkRecord (tm_category t) (tm_name t) (tm_message t) (t1 - tm_start t) None).

Definition timer_error (t : timer) (m : jsval) : M unit :=
  t1 <- now ;;
  _logDebug (mkRecord (tm_category t) (tm_name t) (tm_message t) (t1 - tm_start t) (Some m)).

(** *** The query chain ([FindCursorChain]).

    Modelled from the spec: the chain module is not part of src/.  It holds
    the collection handle, filter and projection it was built with, the
    sort, limit and offset set by its fluent calls, and the execution hook
    [find] registers with [onExec] (here: the timer that hook closes over).
    Its terminal call builds a cursor from that state and runs the hook on
    it; the spec gives no text for the hook's debug message, which this
    model takes to be the serialized filter. *)
Record chain := mkChain {
  ch_collection : option string;
  ch_filter : jsval;
  ch_fields : jsval;
  ch_sort : jsval;
  ch_limit : jsval;
  ch_offset : jsval;
  ch_timer : timer
}.

Definition chain_sort (c : chain) (s : jsval) : chain :=
  mkChain (ch_collection c) (ch_filter c) (ch_fields c) s (ch_limit c) (ch_offset c) (ch_timer c).
Definition chain_limit (c : chain) (n : jsval) : chain :=
  mkChain (ch_collection c) (ch_filter c) (ch_fields c) (ch_sort c) n (ch_offset c) (ch_timer c).
Definition chain_offset (c : chain) (n : jsval) : chain :=
  mkChain (ch_collection c) (ch_filter c) (ch_fields c) (ch_sort c) (ch_limit c) n (ch_timer c).

(** What an operation does synchronously: throw, return a promise (in the
    state it ends in), return a value, return a query chain, or return
    [this]. *)
Inductive outcome :=
| OThrow (e : jsval)
| OPromise (p : pstate)
| OValue (v : jsval)
| OChain (c : chain)
| OThis.

Definition run_sync (m : M outcome) : M outcome := try_catch m (fun e => ret (OThrow e)).

Definition promise (m : M pstate) : M outcome := p <- m ;; ret (OPromise p).

(** ** The facade ([class ModelAbstract]) *)

Definition set_collection (w : world) (c : option string) : world :=
  let f := w_this w in
  set_this w (mkFacade (f_collectionName f) (f_indexes f) c (f_debugger f)).

(** [setDebugger(d)] *)
Definition setDebugger (d : sink) : M unit :=
  modify (fun w => let f := w_this w in
                   set_this w (mkFacade (f_collectionName f) (f_indexes f) (f_collection f) d)).

(** [init()] *)
Definition init : M outcome :=
  run_sync (
    w <- get_world ;;
    let name := f_collectionName (w_this w) in
    if negb (truthy name) then
      throw (VErr ModelError (VStr "no collection name for model") (VCode NO_COLLECTION_NAME))
    else
      modify (fun w => set_collection w (Some (to_js_string name))) ;;;
      ret OThis).

(** [this._collection] must not be [null] for the method lookup; in
    [ensureIndexes] that lookup happens before the arguments are read. *)
Definition coll_check (method : string) : M unit :=
  fun w => match f_collection (w_this w) with
           | None => (w, inl (type_error method))
           | Some _ => (w, inr tt)
           end.

(** Phase 1 of [ensureIndexes]: [indexExists(index.options.name)] for each
    declared index, in order. *)
Fixpoint issue_exists (ixs : list jsval) : M (list reply) :=
  match ixs with
  | [] => ret []
  | ix :: ixs' =>
      coll_check "indexExists" ;;;
      o <- get ix "options" ;;
      n <- get o "name" ;;
      r <- coll_call "indexExists" (SIndexExists n) ;;
      rs <- issue_exists ixs' ;;
      ret (r :: rs)
  end.

(** Phase 2: [_.each(data, (exists, key) => ...)]: a [createIndex] for
    every falsy [exists], with [this._indexes[key]]. *)
Fixpoint issue_creates (ixs : list jsval) (data : list jsval) : M (list reply) :=
  match data with
  | [] => ret []
  | exists_ :: data' =>
      if truthy exists_ then issue_creates (tl ixs) data'
      else
        coll_check "createIndex" ;;;
        ix <- (match ixs with ix :: _ => ret ix | [] => ret VUndef end) ;;
        fields <- get ix "fields" ;;
        o <- get ix "options" ;;
        r <- coll_call "createIndex" (SCreateIndex fields o) ;;
        rs <- issue_creates (tl ixs) data' ;;
        ret (r :: rs)
  end.

Definition array_elems (v : jsval) : list jsval :=
  match v with VArr xs => xs | _ => [] end.

(** [ensureIndexes(options)] *)
Definition ensureIndexes (options : jsval) : M outcome :=
  run_sync (promise (new_promise (
    w <- get_world ;;
    match f_indexes (w_this w) with
    | None => resolve (VArr [])
    | Some ixs =>
        rs <- issue_exists ixs ;;
        then_catch (all_replies rs)
          (fun data =>
             creates <- issue_creates ixs (array_elems data) ;;
             match creates with
             | [] => resolve (VArr [])
             | _ => then_catch (all_replies creates) resolve reject
             end)
          reject
    end))).

(** *** [error.code == 11000]

    JavaScript's loose equality with the number [11000]: a number is
    compared as is; [undefined], [null] and the booleans are never equal to
    it; a string is converted by [Number(s)]; an object is first converted
    to a primitive ([ToPrimitive]), which for the plain objects and arrays
    of this model is the string [String(v)] gives, and that string is then
    converted.  Strings are sequences of bytes read as UTF-8. *)

Definition bytes_of (s : string) : list nat := map nat_of_ascii (list_ascii_of_string s).

(** The [StrWhiteSpaceChar]s [Number(s)] trims: TAB, VT, FF, space, NBSP,
    ZWNBSP, the other [Zs] characters (U+1680, U+2000 to U+200A, U+202F,
    U+205F, U+3000) and the line terminators LF, CR, U+2028, U+2029, each
    as its UTF-8 bytes. *)
Definition js_ws_seqs : list (list nat) :=
  app [[9]; [10]; [11]; [12]; [13]; [32]; [194; 160]; [239; 187; 191]; [225; 154; 128];
   [226; 128; 168]; [226; 128; 169]; [226; 128; 175]; [226; 129; 159]; [227; 128; 128]]
  (map (fun k => [226; 128; 128 + k]) (seq 0 11)).

Fixpoint strip_prefix (p l : list nat) : option (list nat) :=
  match p, l with
  | [], _ => Some l
  | x :: p', y :: l' => if Nat.eqb x y then strip_prefix p' l' else None
  | _ :: _, [] => None
  end.

Fixpoint first_strip (ps : list (list nat)) (l : list nat) : option (list nat) :=
  match ps with
  | [] => None
  | p :: ps' => match p, strip_prefix p l with
                | _ :: _, Some r => Some r
                | _, _ => first_strip ps' l
                end
  end.

(** Drops leading byte sequences of [ps]; each step removes at least one
    byte, so [length l] steps suffice. *)
Fixpoint trim_start_fuel (fuel : nat) (ps : list (list nat)) (l : list nat) : list nat :=
  match fuel with
  | O => l
  | S fuel' => match first_strip ps l with
               | Some r => trim_start_fuel fuel' ps r
               | None => l
               end
  end.

Definition js_trim (l : list nat) : list nat :=
  let l1 := trim_start_fuel (List.length l) js_ws_seqs l in
  rev (trim_start_fuel (List.length l1) (map (@rev nat) js_ws_seqs) (rev l1)).

(** The value of a digit in base [radix] ([0-9], [a-z], [A-Z]). *)
Definition digit_value (radix : nat) (c : nat) : option nat :=
  let d := if andb (Nat.leb 48 c) (Nat.leb c 57) then Some (c - 48)
           else if andb (Nat.leb 97 c) (Nat.leb c 122) then Some (c - 87)
           else if andb (Nat.leb 65 c) (Nat.leb c 90) then Some (c - 55)
           else None in
  match d with Some n => if Nat.ltb n radix then Some n else None | None => None end.

Fixpoint digits_value (radix : nat) (acc : Z) (l : list nat) : option Z :=
  match l with
  | [] => Some acc
  | c :: l' => match digit_value radix c with
               | Some d => digits_value radix (acc * Z.of_nat radix + Z.of_nat d)%Z l'
               | None => None
               end
  end.

(** [NonDecimalIntegerLiteral]: [0x], [0o] or [0b] and at least one digit. *)
Definition radix_literal (radix : nat) (l : list nat) : option Z :=
  match l with [] => None | _ => digits_value radix 0 l end.

Fixpoint span_digits (l : list nat) : list nat * list nat :=
  match l with
  | c :: l' => if andb (Nat.leb 48 c) (Nat.leb c 57)
               then let (ds, r) := span_digits l' in (c :: ds, r) else ([], l)
  | [] => ([], [])
  end.

(** [ExponentPart]: [e] or [E], an optional sign, at least one digit. *)
Definition exponent_part (l : list nat) : option Z :=
  match l with
  | [] => Some 0%Z
  | e :: r =>
      if orb (Nat.eqb e 101) (Nat.eqb e 69) then
        let '(sg, ds) := match r with
                         | 43 :: r' => (1%Z, r')
                         | 45 :: r' => ((-1)%Z, r')
                         | _ => (1%Z, r)
                         end in
        match ds with
        | [] => None
        | _ => option_map (Z.mul sg) (digits_value 10 0 ds)
        end
      else None
  end.

(** [StrUnsignedDecimalLiteral] other than [Infinity]: the digits [m] and
    the exponent [k] of its value [m * 10^k], and the number of digits. *)
Definition unsigned_decimal (l : list nat) : option (Z * Z * nat) :=
  let (d1, r1) := span_digits l in
  let '(d2, r2) := match r1 with
                   | 46 :: r => span_digits r
                   | _ => ([], r1)
                   end in
  match d1, d2 with
  | [], [] => None
  | _, _ =>
      match exponent_part r2, digits_value 10 0 (app d1 d2) with
      | Some x, Some m => Some (m, (x - Z.of_nat (List.length d2))%Z, List.length (app d1 d2))
      | _, _ => None
      end
  end.

(** Whether [m * 10^k] (with [m >= 0] written with [len] digits) rounds to
    the double [11000].  Doubles near 11000 are [2^-39] apart and 11000 has
    an even significand, so the values that round to it are those within
    [2^-40] of it.  With [m > 0], [k > 5] gives at least [10^6], and
    [-k >= len] gives less than 1. *)
Definition decimal_rounds_to_11000 (m k : Z) (len : nat) : bool :=
  (if Z.eqb m 0 then false
   else if Z.leb 0 k then (if Z.leb k 5 then Z.eqb (m * 10 ^ k) 11000 else false)
   else if Z.leb (Z.of_nat len) (- k) then false
   else Z.leb (Z.abs (m - 11000 * 10 ^ (- k)) * 2 ^ 40) (10 ^ (- k)))%Z.

(** [Number(s) === 11000] ([StringToNumber], rounding to the nearest
    double as engines do): after trimming, [0x], [0o] or [0b] literals are
    compared exactly, a [-] sign gives a negative value or [-0], [+] or no
    sign is followed by a decimal literal; anything else ([Infinity],
    malformed text, the empty string) is not 11000. *)
Definition string_is_11000 (s : string) : bool :=
  let l := js_trim (bytes_of s) in
  let by_radix r rest := match radix_literal r rest with
                         | Some z => Z.eqb z 11000%Z
                         | None => false
                         end in
  let dec l' := match unsigned_decimal l' with
                | Some (m, k, len) => decimal_rounds_to_11000 m k len
                | None => false
                end in
  match l with
  | 48 :: x :: rest =>
      if orb (Nat.eqb x 120) (Nat.eqb x 88) then by_radix 16 rest
      else if orb (Nat.eqb x 111) (Nat.eqb x 79) then by_radix 8 rest
      else if orb (Nat.eqb x 98) (Nat.eqb x 66) then by_radix 2 rest
      else dec l
  | 43 :: rest => dec rest
  | 45 :: _ => false
  | _ => dec l
  end.

Definition has_key (k : string) (o : obj) : bool := existsb (fun p => String.eqb (fst p) k) o.

(** [ToPrimitive] followed by [ToString], as [+] on a string and [==] use
    them; [None] when it throws.  The objects of this model are plain
    objects and arrays: an own [toString] property (never a function here)
    hides [Object.prototype.toString], and then the conversion throws a
    [TypeError], since [valueOf] returns the object itself.  An array is
    joined with [,], [null] and [undefined] giving empty strings. *)
Fixpoint prim_string (h : heap) (v : jsval) : option string :=
  let fix go_list (xs : list jsval) : option (list string) :=
    match xs with
    | [] => Some []
    | x :: xs' =>
        match (if is_nullish x then Some EmptyString else prim_string h x), go_list xs' with
        | Some s, Some ss => Some (s :: ss)
        | _, _ => None
        end
    end in
  match v with
  | VRef l => if has_key "toString" (heap_get h l) then None else Some "[object Object]"
  | VObj ps => if has_key "toString" ps then None else Some "[object Object]"
  | VArr xs => option_map (String.concat ",") (go_list xs)
  | _ => Some (to_js_string v)
  end.

(** [v == 11000]; [None] when the conversion of [v] throws. *)
Definition loose_eq_11000 (h : heap) (v : jsval) : option bool :=
  match v with
  | VNum z => Some (Z.eqb z 11000%Z)
  | VUndef | VNull | VBool _ => Some false
  | _ => option_map string_is_11000 (prim_string h v)
  end.

(** The [TypeError] a failed conversion to a primitive throws. *)
Definition primitive_error : jsval :=
  VErr TypeError (VStr "Cannot convert object to primitive value") VUndef.

Definition loose_eq_11000_m (v : jsval) : M bool :=
  fun w => match loose_eq_11000 (w_heap w) v with
           | Some b => (w, inr b)
           | None => (w, inl primitive_error)
           end.

(** [String] conversion of [v] as [+] on a string performs it. *)
Definition concat_string (v : jsval) : M string :=
  fun w => match prim_string (w_heap w) v with
           | Some s => (w, inr s)
           | None => (w, inl primitive_error)
           end.

(** The [.catch] handler of the four single-document operations: the timer's
    [error], then [reject]. *)
Definition on_error (t : timer) (error : jsval) : M unit :=
  m <- get error "message" ;; timer_error t m ;;; reject error.

(** [insertOne(data, options)] *)
Definition insertOne (data options : jsval) : M outcome :=
  run_sync (promise (new_promise (
    timer <- _createTimer "insertOne" ;;
    id <- get data "id" ;;
    (if truthy id then id' <- get data "id" ;; put data "_id" id' else ret tt) ;;;
    w <- get_world ;;
    dj <- json data ;;
    let timer := set_message timer
      (VStr ("db." ++ to_js_string (f_collectionName (w_this w)) ++ ".insert(" ++ to_js_string dj ++ ")")) in
    r <- coll_call "insertOne" (SInsertOne data) ;;
    then_catch r
      (fun result =>
         timer_stop timer ;;;
         ops <- get result "ops" ;;
         c <- (if truthy ops then get_index ops 0 else ret ops) ;;
         if truthy c then o0 <- get_index ops 0 ;; resolve o0 else resolve VNull)
      (fun error =>
         if truthy error then
           code <- get error "code" ;;
           e <- (if truthy code then
                   code' <- get error "code" ;;
                   eq <- loose_eq_11000_m code' ;;
                   if eq then
                     id <- get data "id" ;;
                     ids <- concat_string id ;;
                     ret (VErr ModelError
                            (VStr ("record with id = " ++ ids ++ " already exists"))
                            (VCode ALREADY_EXISTS))
                   else ret error
                 else ret error) ;;
           m <- get e "message" ;;
           timer_error timer m ;;;
           reject e
         else ret tt)))).

(** [findOneAndUpdate(filter, update, options)] *)
Definition findOneAndUpdate (filter update options : jsval) : M outcome :=
  run_sync (
    timer <- _createTimer "findOneAndUpdate" ;;
    options' <- (if negb (truthy options) then ret (VObj [("returnOriginal", VBool false)])
                 else ro <- get options "returnOriginal" ;;
                      match ro with
                      | VUndef => put options "returnOriginal" (VBool false) ;;; ret options
                      | _ => ret options
                      end) ;;
    fj <- json filter ;; uj <- json update ;; oj <- json options' ;;
    let timer := set_message timer
      (VStr ("filter=" ++ to_js_string fj ++ " update=" ++ to_js_string uj ++
             " options=" ++ to_js_string oj)) in
    promise (new_promise (
      r <- coll_call "findOneAndUpdate" (SFindOneAndUpdate filter update options') ;;
      then_catch r (fun data => timer_stop timer ;;; resolve data) (on_error timer)))).

(** [findOne(query, options)] *)
Definition findOne (query options : jsval) : M outcome :=
  run_sync (promise (new_promise (
    timer <- _createTimer "findOne" ;;
    qj <- json query ;; oj <- json options ;;
    let timer := set_message timer
      (VStr ("query=" ++ to_js_string qj ++ " options=" ++ to_js_string oj)) in
    r <- coll_call "findOne" (SFindOne query options) ;;
    then_catch r
      (fun doc => timer_stop timer ;;; if truthy doc then resolve doc else resolve VNull)
      (on_error timer)))).

(** [findOneById(id, options)]: the lookup is [findOne({_id: id})]. *)
Definition findOneById (id options : jsval) : M outcome :=
  run_sync (promise (new_promise (
    timer <- _createTimer "findOneById" ;;
    ij <- json id ;; oj <- json options ;;
    let timer := set_message timer
      (VStr ("id=" ++ to_js_string ij ++ " options=" ++ to_js_string oj)) in
    r <- coll_call "findOne" (SFindOne (VObj [("_id", id)]) VUndef) ;;
    then_catch r
      (fun doc => timer_stop timer ;;; if truthy doc then resolve doc else resolve VNull)
      (on_error timer)))).

(** The hook [find] registers with [chain.onExec]. *)
Definition find_onExec (timer : timer) (cu : cursor) (debugMessage : jsval) : M pstate :=
  let timer := set_message timer debugMessage in
  new_promise (
    timer_stop timer ;;;
    r1 <- cursor_call (SCursorCount cu) ;;
    r2 <- cursor_call (SCursorToArray cu) ;;
    then_catch (all_replies [r1; r2])
      (fun data =>
         total <- get_index data 0 ;;
         docs <- get_index data 1 ;;
         resolve (VObj [("total", total); ("docs", docs)]))
      (on_error timer)).

(** [find(filter, fields, sort, limit, offset, options)]: only [filter] and
    [fields] reach the chain. *)
Definition find (filter fields sort limit offset options : jsval) : M outcome :=
  run_sync (
    timer <- _createTimer "find" ;;
    w <- get_world ;;
    ret (OChain (mkChain (f_collection (w_this w)) filter fields VUndef VUndef VUndef timer))).

(** The chain's terminal call (modelled from the spec, see [chain]). *)
Definition chain_exec (c : chain) : M outcome :=
  run_sync (
    match ch_collection c with
    | None => throw (type_error "find")
    | Some _ =>
        let cu := mkCursor (ch_filter c) (ch_fields c) (ch_sort c) (ch_limit c) (ch_offset c) in
        fj <- json (ch_filter c) ;;
        promise (find_onExec (ch_timer c) cu fj)
    end).

(** [updateOne(filter, data, options)] *)
Definition updateOne (filter data options : jsval) : M outcome :=
  run_sync (promise (new_promise (
    timer <- _createTimer "updateOne" ;;
    fj <- json filter ;; dj <- json data ;; oj <- json options ;;
    let timer := set_message timer
      (VStr ("filter=" ++ to_js_string fj ++ " data=" ++ to_js_string dj ++
             " options=" ++ to_js_string oj)) in
    r <- coll_call "update" (SUpdate filter data (VObj [])) ;;
    then_catch r (fun num => timer_stop timer ;;; resolve data) (on_error timer)))).

(** [removeOne(filter, options)] (its timer is named ["findOne"]). *)
Definition removeOne (filter options : jsval) : M outcome :=
  run_sync (
    timer <- _createTimer "findOne" ;;
    fj <- json filter ;; oj <- json options ;;
    let timer := set_message timer
      (VStr ("filter=" ++ to_js_string fj ++ " options=" ++ to_js_string oj)) in
    promise (new_promise (
      r <- coll_call "remove" (SRemove filter (VObj [])) ;;
      then_catch r (fun count => timer_stop timer ;;; resolve count) (on_error timer)))).

(** [count(filter, options)] *)
Definition count (filter options : jsval) : M outcome :=
  run_sync (
    timer <- _createTimer "count" ;;
    fj <- json filter ;; oj <- json options ;;
    let timer := set_message timer
      (VStr ("filter=" ++ to_js_string fj ++ " options=" ++ to_js_string oj)) in
    promise (new_promise (
      r <- coll_call "count" (SCount filter) ;;
      then_catch r (fun data => timer_stop timer ;;; resolve data) (on_error timer)))).

(** [aggregate(pipeline, options)]: the driver's [aggregate] returns its
    cursor synchronously (a failure is a synchronous exception). *)
Definition aggregate (pipeline options : jsval) : M outcome :=
  run_sync (
    timer <- _createTimer "aggregate" ;;
    pj <- json pipeline ;; oj <- json options ;;
    let timer := set_message timer
      (VStr ("pipeline=" ++ to_js_string pj ++ " options=" ++ to_js_string oj)) in
    timer_stop timer ;;;
    r <- coll_call "aggregate" (SAggregate pipeline options) ;;
    match r with
    | Ok v => ret (OValue v)
    | Err e => throw e
    end).

(** ** Vocabulary of the specification *)

(** A well-formed index declaration [{fields, options: {name, ...}}]: the
    declaration and its options are objects and the name is a string. *)
Record decl := mkDecl { d_fields : jsval; d_options : jsval; d_name : string }.

Definition decl_info (h : heap) (ix : jsval) : option decl :=
  match ix with
  | VRef a =>
      match lookup_prop "options" (heap_get h a) with
      | VRef b =>
          match lookup_prop "name" (heap_get h b) with
          | VStr n => Some (mkDecl (lookup_prop "fields" (heap_get h a)) (VRef b) n)
          | _ => None
          end
      | _ => None
      end
  | _ => None
  end.

Fixpoint decls (h : heap) (ixs : list jsval) : option (list decl) :=
  match ixs with
  | [] => Some []
  | ix :: ixs' =>
      match decl_info h ix, decls h ixs' with
      | Some d, Some ds => Some (d :: ds)
      | _, _ => None
      end
  end.

(** The store's answer to the existence check of a declaration. *)
Definition has_index (idx : list string) (d : decl) : bool :=
  existsb (String.eqb (d_name d)) idx.

Definition exists_event (d : decl) : event := EvStore (SIndexExists (VStr (d_name d))).
Definition create_event (d : decl) : event := EvStore (SCreateIndex (d_fields d) (d_options d)).

Definition is_create (e : event) : bool :=
  match e with EvStore (SCreateIndex _ _) => true | _ => false end.

Definition add_name (idx : list string) (n : string) : list string :=
  if existsb (String.eqb n) idx then idx else app idx [n].

Definition no_failures (s : store) : Prop := forall c, st_fail s c = None.

(** The declared indexes; [null] declares none. *)
Definition declared_indexes (f : facade) : list jsval :=
  match f_indexes f with None => [] | Some l => l end.

(** The CRUD operations of the facade, with their arguments. *)
Inductive crud_op :=
| OpInsertOne (data options : jsval)
| OpFindOne (query options : jsval)
| OpFindOneById (id options : jsval)
| OpFindOneAndUpdate (filter update options : jsval)
| OpUpdateOne (filter data options : jsval)
| OpRemoveOne (filter options : jsval)
| OpCount (filter options : jsval)
| OpFind (filter fields sort limit offset options : jsval).

Definition run_op (o : crud_op) : M outcome :=
  match o with
  | OpInsertOne d o => insertOne d o
  | OpFindOne q o => findOne q o
  | OpFindOneById i o => findOneById i o
  | OpFindOneAndUpdate f u o => findOneAndUpdate f u o
  | OpUpdateOne f d o => updateOne f d o
  | OpRemoveOne f o => removeOne f o
  | OpCount f o => count f o
  | OpFind f fl s l off o => find f fl s l off o
  end.

(** The operations that serialize their arguments before creating their
    promise. *)
Definition has_sync_prefix (o : crud_op) : bool :=
  match o with
  | OpFindOneAndUpdate _ _ _ | OpRemoveOne _ _ | OpCount _ _ => true
  | _ => false
  end.

Definition no_handle (w : world) : Prop := f_collection (w_this w) = None.

Definition is_type_error (v : jsval) : Prop := exists m, v = VErr TypeError m VUndef.

(** On a facade without handle: [m] throws a [TypeError] without settling
    the current promise. *)
Definition te_fails {A} (m : M A) : Prop :=
  forall w, no_handle w ->
  exists w' e, m w = (w', inl e) /\ is_type_error e /\ w_promise w' = w_promise w.

(** On a facade without handle: [m] returns, keeping the facade without
    handle, or throws a [TypeError]; it does not settle the current
    promise. *)
Definition te_safe {A} (m : M A) : Prop :=
  forall w, no_handle w ->
  (exists w' a, m w = (w', inr a) /\ no_handle w' /\ w_promise w' = w_promise w) \/
  (exists w' e, m w = (w', inl e) /\ is_type_error e /\ w_promise w' = w_promise w).

(** On a facade without handle: [m] ends in a promise rejected with a
    [TypeError] or throws a [TypeError]. *)
Definition te_out (m : M outcome) : Prop :=
  forall w, no_handle w ->
  exists w' e, is_type_error e /\ (m w = (w', inr (OPromise (Rejected e))) \/ m w = (w', inl e)).

(** The heap after [insertOne]'s synchronous prelude on the object at [l]:
    [data._id = data.id] when [data.id] is truthy. *)
Definition inserted_heap (h : heap) (l : nat) : heap :=
  let id := lookup_prop "id" (heap_get h l) in
  if truthy id then heap_upd h l (set_prop "_id" id (heap_get h l)) else h.

(** [JSON.stringify(v)] does not throw. *)
Definition json_ok (h : heap) (v : jsval) : Prop := forall u, json_stringify h v <> Some (inl u).

(** [v[k]] for a value [v] that is not [null] or [undefined]. *)
Definition err_prop (h : heap) (v : jsval) (k : string) : jsval :=
  match v with VRef a => lookup_prop k (heap_get h a) | _ => prop v k end.

(** [m] changes nothing but the trace (which it extends) and the state of
    the current promise. *)
Definition frame {A} (m : M A) : Prop :=
  forall w, exists tail p r,
    m w = (mkWorld (w_this w) (w_heap w) (w_store w) (app (w_trace w) tail) p, r).

(** The events [_logDebug(r)] adds in world [w]. *)
Definition log_tail (w : world) (r : record) : list event :=
  match f_debugger (w_this w) with Sink true => [EvLog r] | _ => [] end.

(** The records [stop] and [error(m)] deliver at time [now]. *)
Definition stop_record (t : timer) (now : Z) : record :=
  mkRecord (tm_category t) (tm_name t) (tm_message t) (now - tm_start t) None.

Definition error_record (t : timer) (now : Z) (m : jsval) : record :=
  mkRecord (tm_category t) (tm_name t) (tm_message t) (now - tm_start t) (Some m).

(** The world in which [coll_call m c] followed by
    [.then(v => { timer.stop(); resolve(g(v)); }).catch(on_error)] leaves
    [w]: the store call, then the stop record and the resolution with
    [g v], or the error record and the rejection (nothing for a [null] or
    [undefined] rejection, whose [.message] throws). *)
Definition call_result (t : timer) (c : store_call) (g : jsval -> jsval) (w : world) : world :=
  let (s', rep) := store_step (w_store w) (w_heap w) c in
  let w1 := mkWorld (w_this w) (w_heap w) s' (app (w_trace w) [EvStore c]) (w_promise w) in
  match rep with
  | Ok v => mkWorld (w_this w) (w_heap w) s'
              (app (w_trace w1) (log_tail w1 (stop_record t (st_clock s')))) (Fulfilled (g v))
  | Err e =>
      if is_nullish e then w1
      else mkWorld (w_this w) (w_heap w) s'
             (app (w_trace w1) (log_tail w1 (error_record t (st_clock s') (err_prop (w_heap w) e "message"))))
             (Rejected e)
  end.

(** [findOneAndUpdate]'s default for [options.returnOriginal], for
    [options] falsy or an object: the heap after it and the options passed
    to the store. *)
Definition fau_options (h : heap) (options : jsval) : heap * jsval :=
  if negb (truthy options) then (h, VObj [("returnOriginal", VBool false)])
  else match options with
       | VRef l =>
           match lookup_prop "returnOriginal" (heap_get h l) with
           | VUndef => (heap_upd h l (set_prop "returnOriginal" (VBool false) (heap_get h l)), options)
           | _ => (h, options)
           end
       | _ => (h, options)
       end.

(** The document [findOneAndUpdate] returns when it does not return the original:
    the first stored match with the update applied, [null] when none matches. *)
Definition post_update (s : store) (h : heap) (filter update : jsval) : jsval :=
  match find_index (st_matches s (freeze h filter)) (st_docs s) with
  | Some i => st_apply s (freeze h update) (nth i (st_docs s) VNull)
  | None => VNull
  end.

(** A trace event with the free-form message of a log record removed. *)
Definition erase_message (e : event) : event :=
  match e with
  | EvLog r => EvLog (mkRecord (rec_category r) (rec_name r) VUndef (rec_duration r) (rec_error r))
  | _ => e
  end.

(** The number of records a trace hands to the sink. *)
Fixpoint log_count (tr : list event) : nat :=
  match tr with
  | [] => O
  | EvLog _ :: tr' => S (log_count tr')
  | _ :: tr' => log_count tr'
  end.

(** Whether [_logDebug] forwards records to the sink. *)
Definition logs_to (w : world) : bool :=
  match f_debugger (w_this w) with Sink true => true | _ => false end.

(** Whether a promise has resolved or rejected. *)
Definition settled (p : pstate) : bool :=
  match p with Pending => false | _ => true end.

(** The operations that settle through a single store call ([findOne],
    [findOneById], [findOneAndUpdate], [updateOne], [removeOne], [count]),
    with serializable arguments and, for [findOneAndUpdate], [options] falsy
    or an object. *)
Definition single_ready (w : world) (o : crud_op) : Prop :=
  let h := w_heap w in
  match o with
  | OpFindOne a b | OpFindOneById a b | OpRemoveOne a b | OpCount a b => json_ok h a /\ json_ok h b
  | OpUpdateOne a b c => json_ok h a /\ json_ok h b /\ json_ok h c
  | OpFindOneAndUpdate f u opt =>
      (truthy opt = false \/ exists l, opt = VRef l) /\
      json_ok (fst (fau_options h opt)) f /\ json_ok (fst (fau_options h opt)) u /\
      json_ok (fst (fau_options h opt)) (snd (fau_options h opt))
  | OpInsertOne _ _ | OpFind _ _ _ _ _ _ => False
  end.

(** The operations that settle through their store call: the single-call ones
    of [single_ready], and [insertOne] of an object whose [id]-stamped copy is
    serializable. *)
Definition record_ready (w : world) (o : crud_op) : Prop :=
  match o with
  | OpInsertOne (VRef l) _ => json_ok (inserted_heap (w_heap w) l) (VRef l)
  | OpInsertOne _ _ => False
  | _ => single_ready w o
  end.

(** ** The single-call operations *)

(** The one store call a single-call operation makes: [findOne] forwards
    [options], [findOneById] queries [{_id: id}] without options,
    [findOneAndUpdate] passes its (defaulted) options, [updateOne] and
    [removeOne] pass a fresh [{}], and [count] passes the filter alone. *)
Definition single_call (h : heap) (o : crud_op) : option store_call :=
  match o with
  | OpFindOne q opt => Some (SFindOne q opt)
  | OpFindOneById id _ => Some (SFindOne (VObj [("_id", id)]) VUndef)
  | OpFindOneAndUpdate f u opt => Some (SFindOneAndUpdate f u (snd (fau_options h opt)))
  | OpUpdateOne f d _ => Some (SUpdate f d (VObj []))
  | OpRemoveOne f _ => Some (SRemove f (VObj []))
  | OpCount f _ => Some (SCount f)
  | OpInsertOne _ _ | OpFind _ _ _ _ _ _ => None
  end.

(** The heap when the store is called: only [findOneAndUpdate] writes to it
    (the [returnOriginal] default). *)
Definition single_heap (h : heap) (o : crud_op) : heap :=
  match o with OpFindOneAndUpdate _ _ opt => fst (fau_options h opt) | _ => h end.

(** What the returned promise is fulfilled with, given the store's answer:
    [findOne] and [findOneById] map a falsy document to [null], [updateOne]
    resolves with its [data] argument, the others with the answer. *)
Definition single_result (o : crud_op) (v : jsval) : jsval :=
  match o with
  | OpFindOne _ _ | OpFindOneById _ _ => if truthy v then v else VNull
  | OpUpdateOne _ d _ => d
  | _ => v
  end.

(** The name given to [_createTimer] ([removeOne] uses ['findOne']). *)
Definition single_name (o : crud_op) : string :=
  match o with
  | OpInsertOne _ _ => "insertOne"
  | OpFindOne _ _ => "findOne"
  | OpFindOneById _ _ => "findOneById"
  | OpFindOneAndUpdate _ _ _ => "findOneAndUpdate"
  | OpUpdateOne _ _ _ => "updateOne"
  | OpRemoveOne _ _ => "findOne"
  | OpCount _ _ => "count"
  | OpFind _ _ _ _ _ _ => "find"
  end.

(** The exception [JSON.stringify] throws on a cyclic value. *)
Definition cycle_error : jsval :=
  VErr TypeError (VStr "Converting circular structure to JSON") VUndef.

(** The store's answer to [indexExists(d.options.name)]. *)
Definition exists_reply (s : store) (d : decl) : reply :=
  match st_fail s (SIndexExists (VStr (d_name d))) with
  | Some e => Err e
  | None => Ok (VBool (has_index (st_indexes s) d))
  end.

(** The failure, if any, of [createIndex(d.fields, d.options)]. *)
Definition create_failure (s : store) (d : decl) : option jsval :=
  st_fail s (SCreateIndex (d_fields d) (d_options d)).

(** ** Concrete worlds *)

(** A store whose filters select every document, whose updates replace the
    document and whose sort keeps the order; [fail] injects failures. *)
Definition ex_store (fail : store_call -> option jsval) (docs : list jsval) : store :=
  mkStore docs ["a"] 0 fail (fun _ _ => true) (fun u _ => u) (fun _ xs => xs).

(** Two index declarations (locations 0 and 1, named ["a"] and ["b"]) and
    a document [{id: "X"}] at location 4. *)
Definition ex_heap : heap :=
  [[("options", VRef 2)]; [("options", VRef 3); ("fields", VStr "f")];
   [("name", VStr "a")]; [("name", VStr "b")]; [("id", VStr "X")]].

Definition ex_facade (coll : option string) : facade :=
  mkFacade (VStr "users") (Some [VRef 0; VRef 1]) coll (Sink true).

Definition ex_world (coll : option string) (s : store) : world :=
  mkWorld (ex_facade coll) ex_heap s [] Pending.

Definition no_fail : store_call -> option jsval := fun _ => None.

Definition insert_fails (v : jsval) : store_call -> option jsval :=
  fun c => match c with SInsertOne _ => Some v | _ => None end.

(** A store whose [cursor.toArray()] rejects with [v]. *)
Definition cursor_fails (v : jsval) : store_call -> option jsval :=
  fun c => match c with SCursorToArray _ => Some v | _ => None end.

(** Ten documents [{n: 0}], ..., [{n: 9}]. *)
Definition ten_docs : list jsval :=
  map (fun n => VObj [("n", VNum (Z.of_nat n))]) (seq 0 10).

(** A chain as [find({})] builds it, without sort, limit or offset. *)
Definition ex_chain : chain :=
  mkChain (Some "users") (VObj []) VUndef VUndef VUndef VUndef (mkTimer "mongo" "find" 0 VUndef).

(** A store whose calls selected by [p] fail with [v]. *)
Definition fails_on (p : store_call -> bool) (v : jsval) : store_call -> option jsval :=
  fun c => if p c then Some v else None.

(** [ex_heap] with a cyclic object [{self: <itself>}] at location 5. *)
Definition cyclic_heap : heap := app ex_heap [[("self", VRef 5)]].

(** A model that declares no indexes. *)
Definition bare_world (s : store) : world :=
  mkWorld (mkFacade (VStr "users") None (Some "users") (Sink true)) ex_heap s [] Pending.

(** * Proofs *)

Lemma lookup_prop_map (f : jsval -> jsval) (k : string) (o : obj) :
  f VUndef = VUndef ->
  lookup_prop k (map (fun p => (fst p, f (snd p))) o) = f (lookup_prop k o).
Proof.
  intros Hu. unfold lookup_prop. induction o as [|[k' v] o IH]; simpl.
  - now rewrite Hu.
  - destruct (String.eqb k' k); simpl; auto.
Qed.

Lemma snapshot_obj (h : heap) (n : nat) (ps : list (string * jsval)) :
  snapshot h n (VObj ps) = VObj (map (fun p => (fst p, snapshot h n (snd p))) ps).
Proof. destruct n; reflexivity. Qed.

Lemma freeze_ref_str (h : heap) (b : nat) (k n : string) :
  lookup_prop k (heap_get h b) = VStr n -> prop (freeze h (VRef b)) k = VStr n.
Proof.
  intros Hn. unfold freeze. simpl. rewrite snapshot_obj. simpl.
  rewrite lookup_prop_map by (destruct (List.length h); reflexivity).
  rewrite Hn. destruct (List.length h); reflexivity.
Qed.

Lemma all_replies_ok (vs : list jsval) : all_replies (map Ok vs) = Ok (VArr vs).
Proof. induction vs as [|v vs IH]; simpl; [reflexivity | now rewrite IH]. Qed.

Lemma existsb_add_name (idx : list string) (n m : string) :
  existsb (String.eqb m) (add_name idx n) = existsb (String.eqb m) idx || String.eqb m n.
Proof.
  unfold add_name. destruct (existsb (String.eqb n) idx) eqn:E.
  - destruct (String.eqb m n) eqn:Emn; [|now rewrite orb_false_r].
    apply String.eqb_eq in Emn; subst. now rewrite E.
  - rewrite existsb_app. simpl. now rewrite orb_false_r.
Qed.

(** Phase 1 issues the existence checks in declaration order, answers them
    from the store's indexes and leaves those untouched. *)
Lemma issue_exists_spec (ixs : list jsval) (ds : list decl) (w : world) :
  f_collection (w_this w) <> None ->
  decls (w_heap w) ixs = Some ds ->
  (forall n, st_fail (w_store w) (SIndexExists n) = None) ->
  exists s',
    issue_exists ixs w =
      (mkWorld (w_this w) (w_heap w) s' (app (w_trace w) (map exists_event ds)) (w_promise w),
       inr (map (fun d => Ok (VBool (has_index (st_indexes (w_store w)) d))) ds)) /\
    st_indexes s' = st_indexes (w_store w) /\ st_fail s' = st_fail (w_store w) /\
    st_docs s' = st_docs (w_store w).
Proof.
  revert ds w. induction ixs as [|ix ixs IH]; intros ds [f h s tr p] Hc Hd Hf; simpl in *.
  - inversion Hd; subst. exists s. rewrite app_nil_r. auto.
  - destruct (decl_info h ix) as [d|] eqn:Ed; [|discriminate].
    destruct (decls h ixs) as [ds'|] eqn:Eds; [|discriminate].
    inversion Hd; subst ds; clear Hd.
    destruct (f_collection f) as [coll|] eqn:Ecoll; [|congruence].
    unfold decl_info in Ed.
    destruct ix as [| | | | | | | |a|]; try discriminate.
    destruct (lookup_prop "options" (heap_get h a)) as [| | | | | | | |b|] eqn:Eo; try discriminate.
    destruct (lookup_prop "name" (heap_get h b)) as [| | | |n| | | | |] eqn:En; try discriminate.
    inversion Ed; subst d; clear Ed.
    unfold bind at 1, coll_check at 1. simpl. rewrite Ecoll.
    unfold bind at 1, get at 1. simpl. rewrite Eo.
    unfold bind at 1, get at 1. simpl. rewrite En.
    unfold bind at 1, coll_call at 1. simpl. rewrite Ecoll.
    unfold store_step at 1. rewrite Hf.
    set (s1 := st_with s (st_docs s) (st_indexes s)). unfold emit. simpl.
    destruct (IH ds' (mkWorld f h s1 (app tr [EvStore (SIndexExists (VStr n))]) p))
      as [s' [Heq [Hi [Hfl Hdoc]]]]; simpl; [congruence | assumption | exact Hf |].
    unfold bind at 1. simpl in Heq. rewrite Heq.
    exists s'. simpl. unfold s1 in *; simpl in *. rewrite Hi, Hfl, Hdoc.
    repeat split; auto. f_equal. f_equal. rewrite <- app_assoc. reflexivity.
Qed.

(** Phase 2 issues a creation call for exactly the declarations whose
    existence answer was false, in order; when the store does not fail,
    each of them is answered with its name and recorded as an index. *)
Lemma issue_creates_spec (idx : list string) (ixs : list jsval) (ds : list decl) (w : world) :
  f_collection (w_this w) <> None ->
  decls (w_heap w) ixs = Some ds ->
  let missing := filter (fun d => negb (has_index idx d)) ds in
  exists s' rs,
    issue_creates ixs (map (fun d => VBool (has_index idx d)) ds) w =
      (mkWorld (w_this w) (w_heap w) s' (app (w_trace w) (map create_event missing)) (w_promise w),
       inr rs) /\
    List.length rs = List.length missing /\
    st_fail s' = st_fail (w_store w) /\
    (no_failures (w_store w) ->
     rs = map (fun d => Ok (VStr (d_name d))) missing /\
     st_indexes s' = fold_left add_name (map d_name missing) (st_indexes (w_store w))).
Proof.
  revert ds w. induction ixs as [|ix ixs IH]; intros ds [f h s tr p] Hc Hd; simpl in *.
  - inversion Hd; subst. exists s, []. rewrite app_nil_r. simpl. auto.
  - destruct (decl_info h ix) as [d|] eqn:Ed; [|discriminate].
    destruct (decls h ixs) as [ds'|] eqn:Eds; [|discriminate].
    inversion Hd; subst ds; clear Hd.
    destruct (f_collection f) as [coll|] eqn:Ecoll; [|congruence].
    unfold decl_info in Ed.
    destruct ix as [| | | | | | | |a|]; try discriminate.
    destruct (lookup_prop "options" (heap_get h a)) as [| | | | | | | |b|] eqn:Eo; try discriminate.
    destruct (lookup_prop "name" (heap_get h b)) as [| | | |n| | | | |] eqn:En; try discriminate.
    inversion Ed; subst d; clear Ed. simpl.
    destruct (has_index idx (mkDecl (lookup_prop "fields" (heap_get h a)) (VRef b) n)) eqn:Eh;
      simpl.
    + destruct (IH ds' (mkWorld f h s tr p)) as [s' [rs [Heq [Hlen [Hfl Hnf]]]]];
        simpl; [congruence | assumption |].
      exists s', rs. simpl in Heq. rewrite Heq. auto.
    + unfold bind at 1, coll_check at 1. simpl. rewrite Ecoll.
      unfold bind at 1. simpl. unfold bind at 1, get at 1. simpl.
      unfold bind at 1, get at 1. simpl. rewrite Eo.
      unfold bind at 1, coll_call at 1. simpl. rewrite Ecoll.
      unfold store_step at 1.
      destruct (st_fail s (SCreateIndex (lookup_prop "fields" (heap_get h a)) (VRef b))) as [e|] eqn:Ef.
      * set (s1 := st_with s (st_docs s) (st_indexes s)). unfold emit. simpl.
        destruct (IH ds' (mkWorld f h s1
                    (app tr [EvStore (SCreateIndex (lookup_prop "fields" (heap_get h a)) (VRef b))]) p))
          as [s' [rs [Heq [Hlen [Hfl Hnf]]]]]; simpl; [congruence | assumption |].
        unfold bind at 1. simpl in Heq. rewrite Heq.
        exists s', (Err e :: rs). simpl. unfold s1 in Hfl. simpl in Hfl.
        split; [|split; [simpl; congruence|split; [assumption|]]].
        -- f_equal. f_equal. rewrite <- app_assoc. reflexivity.
        -- intros Hno. rewrite Hno in Ef. discriminate.
      * rewrite (freeze_ref_str h b "name" n En).
        set (s1 := st_with s (st_docs s) (add_name (st_indexes s) n)).
        change (if existsb (String.eqb n) (st_indexes s) then st_indexes s
                else app (st_indexes s) [n]) with (add_name (st_indexes s) n).
        fold s1. unfold emit. simpl.
        destruct (IH ds' (mkWorld f h s1
                    (app tr [EvStore (SCreateIndex (lookup_prop "fields" (heap_get h a)) (VRef b))]) p))
          as [s' [rs [Heq [Hlen [Hfl Hnf]]]]]; simpl; [congruence | assumption |].
        unfold bind at 1. simpl in Heq. rewrite Heq.
        exists s', (Ok (VStr n) :: rs). simpl. unfold s1 in Hfl, Hnf. simpl in Hfl, Hnf.
        split; [|split; [simpl; congruence|split; [assumption|]]].
        -- f_equal. f_equal. rewrite <- app_assoc. reflexivity.
        -- intros Hno. destruct Hnf as [Hrs Hix]; [exact Hno|]. rewrite Hrs, Hix. auto.
Qed.

Lemma bind_inr {A B} (m : M A) (k : A -> M B) (w w' : world) (a : A) :
  m w = (w', inr a) -> bind m k w = k a w'.
Proof. intros H. unfold bind. now rewrite H. Qed.

Lemma bind_inl {A B} (m : M A) (k : A -> M B) (w w' : world) (e : jsval) :
  m w = (w', inl e) -> bind m k w = (w', inl e).
Proof. intros H. unfold bind. now rewrite H. Qed.

Lemma fold_add_name_mem (ns idx : list string) (m : string) :
  existsb (String.eqb m) (fold_left add_name ns idx) =
  existsb (String.eqb m) idx || existsb (String.eqb m) ns.
Proof.
  revert idx. induction ns as [|n ns IH]; intros idx; simpl.
  - now rewrite orb_false_r.
  - rewrite IH, existsb_add_name. now rewrite orb_assoc.
Qed.

Lemma then_catch_trace (r : reply) (w : world) :
  w_trace (fst (then_catch r resolve reject w)) = w_trace w.
Proof.
  destruct r as [v|v]; unfold then_catch, swallow, try_catch, resolve, reject, modify; simpl;
    destruct (w_promise w); reflexivity.
Qed.

(** A whole run of [ensureIndexes] on well-formed declarations whose
    existence checks succeed. *)
Lemma ensureIndexes_run (options : jsval) (ds : list decl) (w : world) :
  f_collection (w_this w) <> None ->
  decls (w_heap w) (declared_indexes (w_this w)) = Some ds ->
  (forall n, st_fail (w_store w) (SIndexExists n) = None) ->
  let missing := filter (fun d => negb (has_index (st_indexes (w_store w)) d)) ds in
  exists s' p,
    ensureIndexes options w =
      (mkWorld (w_this w) (w_heap w) s'
         (app (w_trace w) (app (map exists_event ds) (map create_event missing))) p,
       inr (OPromise p)) /\
    st_fail s' = st_fail (w_store w) /\
    (missing = [] -> p = Fulfilled (VArr [])) /\
    (no_failures (w_store w) ->
     p = Fulfilled (VArr (map (fun d => VStr (d_name d)) missing)) /\
     st_indexes s' = fold_left add_name (map d_name missing) (st_indexes (w_store w))).
Proof.
  intros Hc Hd Hf missing.
  destruct w as [f h s tr p0]. unfold declared_indexes in Hd. simpl in *.
  unfold ensureIndexes, run_sync, promise, new_promise, try_catch.
  unfold bind at 2, bind at 1, get_world. simpl.
  destruct (f_indexes f) as [ixs|] eqn:Ei.
  - destruct (issue_exists_spec ixs ds (mkWorld f h s tr Pending)) as [s1 [He [Hi1 [Hf1 Hd1]]]];
      simpl; auto.
    simpl in Hi1, Hf1, Hd1.
    unfold set_promise. simpl. simpl in He. rewrite (bind_inr _ _ _ _ _ He).
    rewrite <- (map_map (fun d => VBool (has_index (st_indexes s) d)) Ok), all_replies_ok.
    unfold then_catch at 1, swallow, try_catch at 1, try_catch at 1.
    unfold array_elems.
    destruct (issue_creates_spec (st_indexes s) ixs ds
                (mkWorld f h s1 (app tr (map exists_event ds)) Pending)) as [s2 [rs [Hc2 [Hlen [Hf2 Hn2]]]]];
      simpl; auto.
    simpl in Hc2, Hf2, Hn2. rewrite (bind_inr _ _ _ _ _ Hc2). fold missing in Hc2, Hn2, Hlen |- *.
    destruct rs as [|r rs'] eqn:Ers.
    + exists s2, (Fulfilled (VArr [])). simpl. split.
      * rewrite app_assoc. reflexivity.
      * split; [congruence|]. split; [reflexivity|]. intros Hno.
        destruct Hn2 as [Hrs Hix]; [unfold no_failures in *; intros; rewrite Hf1; auto|].
        destruct missing; [|discriminate]. rewrite Hix, Hi1. auto.
    + assert (Hall : no_failures s ->
                all_replies (r :: rs') = Ok (VArr (map (fun d => VStr (d_name d)) missing)) /\
                st_indexes s2 = fold_left add_name (map d_name missing) (st_indexes s)).
      { intros Hno. destruct Hn2 as [Hrs Hix]; [unfold no_failures in *; intros; rewrite Hf1; auto|].
        rewrite Hrs, <- map_map, all_replies_ok, Hix, Hi1. auto. }
      destruct (all_replies (r :: rs')) as [v|e] eqn:Ear.
      * exists s2, (Fulfilled v).
        unfold then_catch, swallow, try_catch, resolve, reject, modify. simpl.
        split; [rewrite app_assoc; reflexivity|]. split; [congruence|].
        split; [intros Hm; rewrite Hm in Hlen; discriminate|].
        intros Hno. destruct (Hall Hno) as [Hv Hix]. inversion Hv; subst. auto.
      * exists s2, (Rejected e).
        unfold then_catch, swallow, try_catch, resolve, reject, modify. simpl.
        split; [rewrite app_assoc; reflexivity|]. split; [congruence|].
        split; [intros Hm; rewrite Hm in Hlen; discriminate|].
        intros Hno. destruct (Hall Hno) as [Hv Hix]. discriminate.
  - inversion Hd; subst ds. exists s, (Fulfilled (VArr [])). simpl.
    split; [rewrite app_nil_r; reflexivity|]. split; [reflexivity|]. auto.
Qed.

Lemma filter_all_false {A} (f : A -> bool) (l : list A) :
  (forall x, In x l -> f x = false) -> filter f l = [].
Proof.
  induction l as [|x l IH]; intros H; simpl; [reflexivity|].
  rewrite (H x (or_introl eq_refl)). apply IH. intros y Hy. apply H. now right.
Qed.

Lemma missing_after_creation (idx : list string) (ds : list decl) :
  filter (fun d => negb (has_index
            (fold_left add_name (map d_name (filter (fun d => negb (has_index idx d)) ds)) idx) d))
         ds = [].
Proof.
  apply filter_all_false. intros d Hin.
  unfold has_index. rewrite fold_add_name_mem.
  destruct (existsb (String.eqb (d_name d)) idx) eqn:E; [reflexivity|]. simpl.
  apply negb_false_iff, existsb_exists. exists (d_name d). split.
  - apply in_map, filter_In. split; [assumption|]. unfold has_index. now rewrite E.
  - apply String.eqb_refl.
Qed.

(** C1. [ensureIndexes] first issues one existence check per declared index
    (all of them, before any creation), then one creation call for exactly
    the declarations whose check answered false and none for the others.
    When no index is declared or none is missing it resolves with [[]], and
    once the creations succeeded a second run issues the existence checks
    again but no creation call and resolves with [[]]. *)
Theorem ensureIndexes_reconciles (options : jsval) (ds : list decl) (w : world) :
  f_collection (w_this w) <> None ->
  decls (w_heap w) (declared_indexes (w_this w)) = Some ds ->
  (forall n, st_fail (w_store w) (SIndexExists n) = None) ->
  let missing := filter (fun d => negb (has_index (st_indexes (w_store w)) d)) ds in
  let (w1, r1) := ensureIndexes options w in
  w_trace w1 = app (w_trace w) (app (map exists_event ds) (map create_event missing)) /\
  (missing = [] -> r1 = inr (OPromise (Fulfilled (VArr [])))) /\
  (no_failures (w_store w) ->
   r1 = inr (OPromise (Fulfilled (VArr (map (fun d => VStr (d_name d)) missing)))) /\
   let (w2, r2) := ensureIndexes options w1 in
   w_trace w2 = app (w_trace w1) (map exists_event ds) /\
   r2 = inr (OPromise (Fulfilled (VArr [])))).
Proof.
  intros Hc Hd Hf missing.
  destruct (ensureIndexes_run options ds w Hc Hd Hf) as [s1 [p1 [E1 [Hf1 [Hm1 Hn1]]]]].
  fold missing in E1, Hm1, Hn1. rewrite E1. simpl.
  split; [reflexivity|]. split; [intros Hm; now rewrite (Hm1 Hm)|].
  intros Hno. destruct (Hn1 Hno) as [Hp1 Hi1]. subst p1. split; [reflexivity|].
  set (w1 := mkWorld (w_this w) (w_heap w) s1
               (app (w_trace w) (app (map exists_event ds) (map create_event missing)))
               (Fulfilled (VArr (map (fun d => VStr (d_name d)) missing)))).
  assert (Hf1' : forall n, st_fail (w_store w1) (SIndexExists n) = None).
  { intros n. simpl. rewrite Hf1. apply Hf. }
  destruct (ensureIndexes_run options ds w1 Hc Hd Hf1') as [s2 [p2 [E2 [_ [Hm2 _]]]]].
  rewrite E2. simpl.
  assert (Hnone : filter (fun d => negb (has_index (st_indexes s1) d)) ds = []).
  { rewrite Hi1. apply missing_after_creation. }
  rewrite Hnone. simpl. rewrite app_nil_r. split; [reflexivity|].
  now rewrite (Hm2 Hnone).
Qed.

(** ** Operations on a facade without collection handle *)

Lemma safe_fails {A B} (m : M A) (k : A -> M B) :
  te_safe m -> (forall a, te_fails (k a)) -> te_fails (bind m k).
Proof.
  intros Hm Hk w Hw. unfold bind.
  destruct (Hm w Hw) as [[w' [a [E [Hw' Hp]]]] | [w' [e [E [Ht Hp]]]]]; rewrite E.
  - destruct (Hk a w' Hw') as [w'' [e [E' [Ht Hp']]]]. exists w'', e. rewrite E'.
    split; [reflexivity | split; [assumption | congruence]].
  - exists w', e. auto.
Qed.

Lemma safe_safe {A B} (m : M A) (k : A -> M B) :
  te_safe m -> (forall a, te_safe (k a)) -> te_safe (bind m k).
Proof.
  intros Hm Hk w Hw. unfold bind.
  destruct (Hm w Hw) as [[w' [a [E [Hw' Hp]]]] | [w' [e [E [Ht Hp]]]]]; rewrite E.
  - destruct (Hk a w' Hw') as [[w'' [b [E' [Hw'' Hp']]]] | [w'' [e [E' [Ht Hp']]]]];
      rewrite E'.
    + left. exists w'', b. split; [reflexivity | split; [assumption | congruence]].
    + right. exists w'', e. split; [reflexivity | split; [assumption | congruence]].
  - right. exists w', e. auto.
Qed.

Ltac safe_ok := left; eexists _, _; split; [reflexivity | split; [assumption | reflexivity]].
Ltac safe_te := right; eexists _, _; split; [reflexivity | split; [eexists; reflexivity | reflexivity]].

Lemma ret_safe {A} (a : A) : te_safe (ret a).
Proof. intros w Hw. safe_ok. Qed.

Lemma get_safe (v : jsval) (k : string) : te_safe (get v k).
Proof. intros w Hw. unfold get. destruct v; first [safe_ok | safe_te]. Qed.

Lemma get_index_safe (v : jsval) (n : nat) : te_safe (get_index v n).
Proof. destruct v; simpl; try apply ret_safe; apply get_safe. Qed.

Lemma put_safe (v : jsval) (k : string) (x : jsval) : te_safe (put v k x).
Proof. intros w Hw. unfold put. destruct v; first [safe_ok | safe_te]. Qed.

Lemma json_safe (v : jsval) : te_safe (json v).
Proof.
  intros w Hw. unfold json.
  destruct (json_stringify (w_heap w) v) as [[u|t]|]; first [safe_ok | safe_te].
Qed.

Lemma now_safe : te_safe now.
Proof. intros w Hw. safe_ok. Qed.

Lemma createTimer_safe (name : string) : te_safe (_createTimer name).
Proof. apply safe_safe; [apply now_safe | intros; apply ret_safe]. Qed.

Lemma get_world_safe : te_safe get_world.
Proof. intros w Hw. safe_ok. Qed.

Lemma coll_call_fails (m : string) (c : store_call) : te_fails (coll_call m c).
Proof.
  intros w Hw. unfold coll_call. rewrite Hw. eexists _, _. split; [reflexivity|].
  split; [eexists; reflexivity|reflexivity].
Qed.

Lemma coll_call_then_fails {B} (m : string) (c : store_call) (k : reply -> M B) :
  te_fails (bind (coll_call m c) k).
Proof.
  intros w Hw. unfold bind. destruct (coll_call_fails m c w Hw) as [w' [e [E H]]].
  rewrite E. eauto.
Qed.

Lemma new_promise_fails (ex : M unit) (w : world) :
  te_fails ex -> no_handle w ->
  exists w' e, new_promise ex w = (w', inr (Rejected e)) /\ is_type_error e.
Proof.
  intros Hex Hw. unfold new_promise.
  destruct (Hex (set_promise w Pending) Hw) as [w' [e [E [Ht Hp]]]]. rewrite E.
  simpl in Hp. unfold reject, modify. simpl. rewrite Hp. simpl. eauto.
Qed.

Lemma promise_out (ex : M unit) : te_fails ex -> te_out (promise (new_promise ex)).
Proof.
  intros Hex w Hw. destruct (new_promise_fails ex w Hex Hw) as [w' [e [E Ht]]].
  exists w', e. split; [assumption|]. left. unfold promise, bind. now rewrite E.
Qed.

Lemma safe_out {A} (m : M A) (k : A -> M outcome) :
  te_safe m -> (forall a, te_out (k a)) -> te_out (bind m k).
Proof.
  intros Hm Hk w Hw. unfold bind.
  destruct (Hm w Hw) as [[w' [a [E [Hw' Hp]]]] | [w' [e [E [Ht Hp]]]]]; rewrite E.
  - apply (Hk a w' Hw').
  - exists w', e. auto.
Qed.

Lemma run_sync_out (m : M outcome) (w : world) :
  te_out m -> no_handle w ->
  exists e, is_type_error e /\
    (snd (run_sync m w) = inr (OPromise (Rejected e)) \/ snd (run_sync m w) = inr (OThrow e)).
Proof.
  intros Hm Hw. destruct (Hm w Hw) as [w' [e [Ht [E|E]]]]; exists e; split; auto;
    unfold run_sync, try_catch; rewrite E; auto.
Qed.

Lemma run_sync_promise (ex : M unit) (w : world) :
  te_fails ex -> no_handle w ->
  exists e, is_type_error e /\ snd (run_sync (promise (new_promise ex)) w) = inr (OPromise (Rejected e)).
Proof.
  intros Hex Hw. destruct (new_promise_fails ex w Hex Hw) as [w' [e [E Ht]]].
  exists e. split; [assumption|]. unfold run_sync, try_catch, promise, bind. now rewrite E.
Qed.

Ltac te_step :=
  repeat match goal with
  | |- te_out (promise (new_promise _)) => apply promise_out
  | |- te_out (bind _ _) => apply safe_out; [| intro]
  | |- te_fails (bind (coll_call _ _) _) => apply coll_call_then_fails
  | |- te_fails (bind _ _) => apply safe_fails; [| intro]
  | |- te_safe (bind _ _) => apply safe_safe; [| intro]
  | |- te_safe (ret _) => apply ret_safe
  | |- te_safe (get _ _) => apply get_safe
  | |- te_safe (get_index _ _) => apply get_index_safe
  | |- te_safe (put _ _ _) => apply put_safe
  | |- te_safe (json _) => apply json_safe
  | |- te_safe (_createTimer _) => apply createTimer_safe
  | |- te_safe get_world => apply get_world_safe
  | |- te_safe (if ?b then _ else _) => destruct b
  | |- te_safe (match ?v with _ => _ end) => destruct v
  | |- _ => progress cbv zeta
  end.

(** C2, as the code has it.  Only [init()] reports [NO_COLLECTION_NAME]:
    it throws it synchronously when no collection name is declared, and
    leaves the facade without handle.  The CRUD operations do not check:
    on a facade without handle, [insertOne], [findOne], [findOneById] and
    [updateOne] return a promise rejected with a [TypeError] (error code
    undefined), [findOneAndUpdate], [removeOne] and [count] do the same or,
    when their synchronous preparation (serializing the arguments, for
    [findOneAndUpdate] also defaulting [options.returnOriginal]) fails,
    throw that [TypeError]; [find] returns its chain without failing. *)
Theorem crud_without_handle (o : crud_op) (w : world) :
  no_handle w ->
  (truthy (f_collectionName (w_this w)) = false ->
   exists m, init w = (w, inr (OThrow (VErr ModelError m (VCode NO_COLLECTION_NAME))))) /\
  match o with
  | OpFind _ _ _ _ _ _ => exists c, snd (run_op o w) = inr (OChain c) /\ ch_collection c = None
  | _ => exists e, is_type_error e /\
         (snd (run_op o w) = inr (OPromise (Rejected e)) \/
          (has_sync_prefix o = true /\ snd (run_op o w) = inr (OThrow e)))
  end.
Proof.
  intros Hw. split.
  { intros Hn. unfold init, run_sync, try_catch, bind, get_world. simpl. rewrite Hn. simpl.
    eexists. reflexivity. }
  destruct o; simpl;
    [unfold insertOne | unfold findOne | unfold findOneById | unfold findOneAndUpdate
    | unfold updateOne | unfold removeOne | unfold count | ];
    lazymatch goal with
    | |- context [run_sync (promise (new_promise ?ex)) w] =>
        destruct (run_sync_promise ex w ltac:(te_step) Hw) as [e [Ht E]];
        exists e; split; [exact Ht | left; exact E]
    | |- context [run_sync ?m w] =>
        destruct (run_sync_out m w ltac:(te_step) Hw) as [e [Ht [E|E]]];
        exists e; split; auto
    | _ => eexists; split; [reflexivity | exact Hw]
    end.
Qed.

(** ** [insertOne] *)

Lemma frame_bind {A B} (m : M A) (k : A -> M B) :
  frame m -> (forall a, frame (k a)) -> frame (bind m k).
Proof.
  intros Hm Hk w. destruct (Hm w) as [t1 [p1 [r1 E1]]]. unfold bind. rewrite E1.
  destruct r1 as [e|a].
  - exists t1, p1, (inl e). reflexivity.
  - destruct (Hk a (mkWorld (w_this w) (w_heap w) (w_store w) (app (w_trace w) t1) p1))
      as [t2 [p2 [r2 E2]]]. rewrite E2. simpl. exists (app t1 t2), p2, r2.
    now rewrite app_assoc.
Qed.

Lemma frame_try_catch {A} (m : M A) (h : jsval -> M A) :
  frame m -> (forall e, frame (h e)) -> frame (try_catch m h).
Proof.
  intros Hm Hh w. destruct (Hm w) as [t1 [p1 [r1 E1]]]. unfold try_catch. rewrite E1.
  destruct r1 as [e|a].
  - destruct (Hh e (mkWorld (w_this w) (w_heap w) (w_store w) (app (w_trace w) t1) p1))
      as [t2 [p2 [r2 E2]]]. rewrite E2. simpl. exists (app t1 t2), p2, r2.
    now rewrite app_assoc.
  - exists t1, p1, (inr a). reflexivity.
Qed.

Lemma frame_nil {A} (m : M A) : (forall w, exists r, m w = (w, r)) -> frame m.
Proof. intros H w. destruct (H w) as [r E]. rewrite E. exists [], (w_promise w), r.
  destruct w. simpl. now rewrite app_nil_r. Qed.

Lemma frame_ret {A} (a : A) : frame (ret a).
Proof. apply frame_nil. intros w. eexists. reflexivity. Qed.
Lemma frame_throw {A} (e : jsval) : frame (@throw A e).
Proof. apply frame_nil. intros w. eexists. reflexivity. Qed.
Lemma frame_get (v : jsval) k : frame (get v k).
Proof. apply frame_nil. intros w. unfold get. destruct v; eexists; reflexivity. Qed.
Lemma frame_get_index (v : jsval) n : frame (get_index v n).
Proof. unfold get_index. destruct v; try apply frame_ret; apply frame_get. Qed.
Lemma frame_now : frame now.
Proof. apply frame_nil. intros w. eexists. reflexivity. Qed.
Lemma frame_logDebug r : frame (_logDebug r).
Proof.
  intros w. unfold _logDebug, modify. destruct w as [[a b c d] hp st tr pr]. simpl.
  destruct d as [|[|]]; simpl.
  - exists [], pr, (inr tt). now rewrite app_nil_r.
  - exists [EvLog r], pr, (inr tt). reflexivity.
  - exists [], pr, (inr tt). now rewrite app_nil_r.
Qed.
Lemma frame_settle (f : pstate -> pstate) : frame (modify (fun w => set_promise w (f (w_promise w)))).
Proof. intros [th hp st tr pr]. exists [], (f pr), (inr tt). simpl. now rewrite app_nil_r. Qed.
Lemma frame_resolve v : frame (resolve v).
Proof.
  intros [th hp st tr pr]. unfold resolve, modify. simpl.
  destruct pr; [exists [], (Fulfilled v) | exists [], (Fulfilled v0) | exists [], (Rejected v0)];
    exists (inr tt); simpl; now rewrite app_nil_r.
Qed.
Lemma frame_reject v : frame (reject v).
Proof.
  intros [th hp st tr pr]. unfold reject, modify. simpl.
  destruct pr; [exists [], (Rejected v) | exists [], (Fulfilled v0) | exists [], (Rejected v0)];
    exists (inr tt); simpl; now rewrite app_nil_r.
Qed.
Lemma frame_timer_stop t : frame (timer_stop t).
Proof. unfold timer_stop. apply frame_bind; [apply frame_now | intros; apply frame_logDebug]. Qed.
Lemma frame_timer_error t m : frame (timer_error t m).
Proof. unfold timer_error. apply frame_bind; [apply frame_now | intros; apply frame_logDebug]. Qed.

Ltac fr_step :=
  repeat match goal with
  | |- frame (bind _ _) => apply frame_bind; [| intro]
  | |- frame (try_catch _ _) => apply frame_try_catch; [| intro]
  | |- frame (swallow _) => apply frame_try_catch; [| intro]
  | |- frame (then_catch ?r _ _) => unfold then_catch; destruct r
  | |- frame (ret _) => apply frame_ret
  | |- frame (throw _) => apply frame_throw
  | |- frame (get _ _) => apply frame_get
  | |- frame (get_index _ _) => apply frame_get_index
  | |- frame (timer_stop _) => apply frame_timer_stop
  | |- frame (timer_error _ _) => apply frame_timer_error
  | |- frame (on_error _ _) => unfold on_error
  | |- frame (resolve _) => apply frame_resolve
  | |- frame (reject _) => apply frame_reject
  | |- frame (if ?b then _ else _) => destruct b
  | |- frame (match ?x with _ => _ end) => destruct x
  end.


Lemma run_promise_eq (ex : M unit) (w w' : world) :
  ex (set_promise w Pending) = (w', inr tt) ->
  run_sync (promise (new_promise ex)) w = (w', inr (OPromise (w_promise w'))).
Proof. intros H. unfold run_sync, promise, new_promise, try_catch, bind. now rewrite H. Qed.

Lemma createTimer_eq n w : _createTimer n w = (w, inr (mkTimer "mongo" n (st_clock (w_store w)) VUndef)).
Proof. reflexivity. Qed.
Lemma get_ref_eq l k w : get (VRef l) k w = (w, inr (lookup_prop k (heap_get (w_heap w) l))).
Proof. reflexivity. Qed.
Lemma get_world_eq w : get_world w = (w, inr w).
Proof. reflexivity. Qed.
Lemma json_eq v w s : json_stringify (w_heap w) v = Some (inr s) -> json v w = (w, inr (VStr s)).
Proof. intros H. unfold json. now rewrite H. Qed.
Lemma json_eq_undef v w : json_stringify (w_heap w) v = None -> json v w = (w, inr VUndef).
Proof. intros H. unfold json. now rewrite H. Qed.

Lemma put_ref_eq l k x w :
  put (VRef l) k x w =
  (set_heap w (heap_upd (w_heap w) l (set_prop k x (heap_get (w_heap w) l))), inr tt).
Proof. reflexivity. Qed.
Lemma get_truthy_eq v k w :
  truthy v = true -> get v k w = (w, inr (err_prop (w_heap w) v k)).
Proof. intros H. destruct v; simpl in H; try discriminate; reflexivity. Qed.
Lemma coll_call_eq m c w cn :
  f_collection (w_this w) = Some cn ->
  coll_call m c w =
  (mkWorld (w_this w) (w_heap w) (fst (store_step (w_store w) (w_heap w) c))
     (app (w_trace w) [EvStore c]) (w_promise w),
   inr (snd (store_step (w_store w) (w_heap w) c))).
Proof. intros H. unfold coll_call. rewrite H. destruct (store_step _ _ _). reflexivity. Qed.
Lemma logDebug_eq r w :
  _logDebug r w = (mkWorld (w_this w) (w_heap w) (w_store w) (app (w_trace w) (log_tail w r)) (w_promise w), inr tt).
Proof.
  unfold _logDebug, modify, log_tail. destruct w as [[a b c d] hp st tr pr]. simpl.
  destruct d as [|[|]]; simpl; now rewrite ?app_nil_r.
Qed.
Lemma then_catch_returns r ok err w : exists w', then_catch r ok err w = (w', inr tt).
Proof.
  unfold then_catch, swallow.
  generalize (match r with Ok v => try_catch (ok v) err | Err e => err e end). intros m.
  unfold try_catch. destruct (m w) as [w' [e|[]]]; exists w'; reflexivity.
Qed.
Lemma frame_then_catch r ok err :
  (forall v, frame (ok v)) -> (forall e, frame (err e)) -> frame (then_catch r ok err).
Proof.
  intros Ho He. unfold then_catch, swallow. apply frame_try_catch; [|intros; apply frame_ret].
  destruct r; [apply frame_try_catch|]; auto.
Qed.
Lemma heap_get_upd h l o : l < List.length h -> heap_get (heap_upd h l o) l = o.
Proof.
  unfold heap_get. revert l. induction h as [|o' h IH]; intros [|l] Hl; simpl in *; try lia; auto.
  apply IH. lia.
Qed.
Lemma heap_get_out h l : List.length h <= l -> heap_get h l = [].
Proof. unfold heap_get. intros H. apply nth_overflow. exact H. Qed.
Lemma lookup_set_other k k' v o : k' <> k -> lookup_prop k (set_prop k' v o) = lookup_prop k o.
Proof.
  intros Hk. unfold lookup_prop. induction o as [|[k1 v1] o IH]; simpl.
  - destruct (String.eqb_spec k' k); [congruence|reflexivity].
  - destruct (String.eqb_spec k1 k'); simpl.
    + subst. destruct (String.eqb_spec k' k); [congruence|]. reflexivity.
    + destruct (String.eqb k1 k); [reflexivity|exact IH].
Qed.
Lemma inserted_id h l :
  lookup_prop "id" (heap_get (inserted_heap h l) l) = lookup_prop "id" (heap_get h l).
Proof.
  unfold inserted_heap. destruct (truthy (lookup_prop "id" (heap_get h l))) eqn:Hid; [|reflexivity].
  destruct (Nat.lt_ge_cases l (List.length h)) as [Hl|Hl].
  - rewrite heap_get_upd by exact Hl. apply lookup_set_other. discriminate.
  - rewrite (heap_get_out h l Hl) in Hid. discriminate.
Qed.

Lemma bind_assoc_w {A B C} (m : M A) (k1 : A -> M B) (k2 : B -> M C) w :
  bind (bind m k1) k2 w = bind m (fun x => bind (k1 x) k2) w.
Proof. unfold bind. destruct (m w) as [w' [e|a]]; reflexivity. Qed.

Tactic Notation "stp" uconstr(E) :=
  repeat rewrite bind_assoc_w; erewrite (bind_inr _ _ _ _ _ E); cbv beta zeta; cbn [w_heap w_store w_this w_trace w_promise fst snd].

Lemma timer_stop_eq t w :
  timer_stop t w =
  (mkWorld (w_this w) (w_heap w) (w_store w)
     (app (w_trace w) (log_tail w (stop_record t (st_clock (w_store w))))) (w_promise w), inr tt).
Proof. unfold timer_stop. rewrite (bind_inr _ _ _ _ _ (eq_refl : now w = (w, inr (st_clock (w_store w))))).
  apply logDebug_eq. Qed.
Lemma store_insert_ok s h d s' v :
  store_step s h (SInsertOne d) = (s', Ok v) ->
  v = VObj [("insertedCount", VNum 1); ("ops", VArr [freeze h d])].
Proof.
  unfold store_step. destruct (st_fail s (SInsertOne d)); [discriminate|].
  match goal with |- context [if ?b then _ else _] => destruct b end;
    intros H; inversion H; reflexivity.
Qed.
Lemma freeze_ref_obj h l : exists ps, freeze h (VRef l) = VObj ps.
Proof. unfold freeze. destruct (List.length h); eexists; reflexivity. Qed.
Lemma loose_eq_m_eq v w b : loose_eq_11000 (w_heap w) v = Some b -> loose_eq_11000_m v w = (w, inr b).
Proof. intros H. unfold loose_eq_11000_m. now rewrite H. Qed.
Lemma loose_eq_m_throw v w : loose_eq_11000 (w_heap w) v = None -> loose_eq_11000_m v w = (w, inl primitive_error).
Proof. intros H. unfold loose_eq_11000_m. now rewrite H. Qed.
Lemma concat_string_eq v w s : prim_string (w_heap w) v = Some s -> concat_string v w = (w, inr s).
Proof. intros H. unfold concat_string. now rewrite H. Qed.
Lemma concat_string_throw v w : prim_string (w_heap w) v = None -> concat_string v w = (w, inl primitive_error).
Proof. intros H. unfold concat_string. now rewrite H. Qed.
Lemma get_err_eq k m c key w : get (VErr k m c) key w = (w, inr (prop (VErr k m c) key)).
Proof. reflexivity. Qed.
Lemma ret_eq {A} (a : A) w : ret a w = (w, inr a).
Proof. reflexivity. Qed.
Lemma timer_error_eq t m w :
  timer_error t m w =
  (mkWorld (w_this w) (w_heap w) (w_store w)
     (app (w_trace w) (log_tail w (mkRecord (tm_category t) (tm_name t) (tm_message t)
                                     (st_clock (w_store w) - tm_start t) (Some m))))
     (w_promise w), inr tt).
Proof. unfold timer_error. rewrite (bind_inr _ _ _ _ _ (eq_refl : now w = (w, inr (st_clock (w_store w))))).
  apply logDebug_eq. Qed.
Lemma log_count_tail th hp st tr p r :
  log_count (log_tail (mkWorld th hp st tr p) r) =
  (if logs_to (mkWorld th hp st tr p) then 1 else 0).
Proof. unfold log_tail, logs_to. cbn [w_this]. destruct (f_debugger th) as [|[|]]; reflexivity. Qed.

(** [insertOne] on the object at [l], once it reaches the store: the
    store call, then at most one record, and the state its promise ends
    in. *)
Lemma insertOne_run (l : nat) (opts : jsval) (w : world) :
  f_collection (w_this w) <> None ->
  json_ok (inserted_heap (w_heap w) l) (VRef l) ->
  let h1 := inserted_heap (w_heap w) l in
  exists tail p,
    insertOne (VRef l) opts w =
      (mkWorld (w_this w) h1 (fst (store_step (w_store w) h1 (SInsertOne (VRef l))))
               (app (w_trace w) (EvStore (SInsertOne (VRef l)) :: tail)) p,
       inr (OPromise p)) /\
    log_count tail = (if settled p && logs_to w then 1 else 0) /\
    (forall v, snd (store_step (w_store w) h1 (SInsertOne (VRef l))) = Ok v ->
       p = Fulfilled (freeze h1 (VRef l))) /\
    (forall e, snd (store_step (w_store w) h1 (SInsertOne (VRef l))) = Err e ->
       p = if truthy e then
             if truthy (err_prop h1 e "code") then
               match loose_eq_11000 h1 (err_prop h1 e "code") with
               | Some true =>
                   match prim_string h1 (lookup_prop "id" (heap_get (w_heap w) l)) with
                   | Some s => Rejected (VErr ModelError
                                           (VStr ("record with id = " ++ s ++ " already exists"))
                                           (VCode ALREADY_EXISTS))
                   | None => Pending
                   end
               | Some false => Rejected e
               | None => Pending
               end
             else Rejected e
           else Pending).
Proof.
  intros Hc Hj h1.
  destruct w as [th hp st tr pr]; simpl in *.
  destruct (f_collection th) as [cn|] eqn:Ec; [|congruence].
  unfold insertOne.
  match goal with |- context [run_sync (promise (new_promise ?ex))] => set (EX := ex) end.
  assert (HX : exists tail p, EX (mkWorld th hp st tr Pending) =
            (mkWorld th h1 (fst (store_step st h1 (SInsertOne (VRef l))))
               (app tr (EvStore (SInsertOne (VRef l)) :: tail)) p, inr tt) /\
    log_count tail = (if settled p && logs_to (mkWorld th hp st tr pr) then 1 else 0) /\
    (forall v, snd (store_step st h1 (SInsertOne (VRef l))) = Ok v ->
       p = Fulfilled (freeze h1 (VRef l))) /\
    (forall e, snd (store_step st h1 (SInsertOne (VRef l))) = Err e ->
       p = if truthy e then
             if truthy (err_prop h1 e "code") then
               match loose_eq_11000 h1 (err_prop h1 e "code") with
               | Some true =>
                   match prim_string h1 (lookup_prop "id" (heap_get hp l)) with
                   | Some s => Rejected (VErr ModelError
                                           (VStr ("record with id = " ++ s ++ " already exists"))
                                           (VCode ALREADY_EXISTS))
                   | None => Pending
                   end
               | Some false => Rejected e
               | None => Pending
               end
             else Rejected e
           else Pending)).
  { unfold EX.
    stp (createTimer_eq "insertOne" (mkWorld th hp st tr Pending)).
    stp (get_ref_eq l "id" (mkWorld th hp st tr Pending)).
    assert (EA : (if truthy (lookup_prop "id" (heap_get hp l))
                  then (id' <- get (VRef l) "id" ;; put (VRef l) "_id" id') else ret tt)
                 (mkWorld th hp st tr Pending) = (mkWorld th h1 st tr Pending, inr tt)).
    { unfold h1, inserted_heap. destruct (truthy (lookup_prop "id" (heap_get hp l))); reflexivity. }
    stp EA. stp (get_world_eq (mkWorld th h1 st tr Pending)).
    assert (EJ : exists dj, json (VRef l) (mkWorld th h1 st tr Pending) = (mkWorld th h1 st tr Pending, inr dj)).
    { unfold json. simpl. destruct (json_stringify h1 (VRef l)) as [[u|s]|] eqn:J;
        [exfalso; exact (Hj u J) | eexists; reflexivity | eexists; reflexivity]. }
    destruct EJ as [dj EJ]. stp EJ.
    stp (coll_call_eq "insertOne" (SInsertOne (VRef l)) (mkWorld th h1 st tr Pending) cn Ec).
    destruct (store_step st h1 (SInsertOne (VRef l))) as [s' r] eqn:Est. cbn [fst snd].
    destruct r as [v|e].
    - rewrite (store_insert_ok _ _ _ _ _ Est). destruct (freeze_ref_obj h1 l) as [ps Eps]. rewrite Eps.
      unfold then_catch, swallow, try_catch. cbv beta iota.
      stp (timer_stop_eq _ _).
      do 2 eexists. split; [rewrite <- app_assoc; reflexivity|].
      split; [|split; [intros v' _; reflexivity | intros e0 He0; discriminate He0]].
      rewrite log_count_tail. reflexivity.
    - unfold then_catch, swallow. cbv beta iota. unfold try_catch.
      destruct (truthy e) eqn:Ht; cbv beta iota.
      + stp (get_truthy_eq e "code" _ Ht).
        destruct (truthy (err_prop h1 e "code")) eqn:Hcode; cbv beta iota.
        * stp (get_truthy_eq e "code" _ Ht).
          destruct (loose_eq_11000 h1 (err_prop h1 e "code")) as [[|]|] eqn:Hl.
          -- stp (loose_eq_m_eq _ (mkWorld th h1 s' (app tr [EvStore (SInsertOne (VRef l))]) Pending) _ Hl).
             stp (get_ref_eq l "id" _).
             replace (lookup_prop "id" (heap_get h1 l)) with (lookup_prop "id" (heap_get hp l))
               by (symmetry; apply inserted_id).
             destruct (prim_string h1 (lookup_prop "id" (heap_get hp l))) as [s|] eqn:Hs.
             ++ stp (concat_string_eq _ (mkWorld th h1 s' (app tr [EvStore (SInsertOne (VRef l))]) Pending) _ Hs).
                stp (ret_eq _ _).
                stp (get_err_eq _ _ _ "message" _). stp (timer_error_eq _ _ _).
                unfold reject, modify. cbn [w_promise set_promise].
                do 2 eexists. split; [rewrite <- app_assoc; reflexivity|].
                split; [rewrite log_count_tail; reflexivity|].
                split; [intros v He0; discriminate He0|].
                intros e0 He0. injection He0 as <-. now rewrite Ht, Hcode, Hl.
             ++ repeat rewrite bind_assoc_w.
                rewrite (bind_inl _ _ _ _ _
                           (concat_string_throw _ (mkWorld th h1 s' (app tr [EvStore (SInsertOne (VRef l))]) Pending) Hs)).
                unfold ret. cbv beta iota.
                exists [], Pending. split; [reflexivity|].
                split; [reflexivity|].
                split; [intros v He0; discriminate He0|].
                intros e0 He0. injection He0 as <-. now rewrite Ht, Hcode, Hl.
          -- stp (loose_eq_m_eq _ (mkWorld th h1 s' (app tr [EvStore (SInsertOne (VRef l))]) Pending) _ Hl).
             stp (ret_eq _ _). stp (get_truthy_eq _ "message" _ Ht). stp (timer_error_eq _ _ _).
             unfold reject, modify. cbn [w_promise set_promise].
             do 2 eexists. split; [rewrite <- app_assoc; reflexivity|].
             split; [rewrite log_count_tail; reflexivity|].
             split; [intros v He0; discriminate He0|].
             intros e0 He0. injection He0 as <-. now rewrite Ht, Hcode, Hl.
          -- repeat rewrite bind_assoc_w.
             rewrite (bind_inl _ _ _ _ _
                        (loose_eq_m_throw _ (mkWorld th h1 s' (app tr [EvStore (SInsertOne (VRef l))]) Pending) Hl)).
             unfold ret. cbv beta iota.
             exists [], Pending. split; [reflexivity|].
             split; [reflexivity|].
             split; [intros v He0; discriminate He0|].
             intros e0 He0. injection He0 as <-. now rewrite Ht, Hcode, Hl.
        * stp (ret_eq _ _). stp (get_truthy_eq _ "message" _ Ht). stp (timer_error_eq _ _ _).
          unfold reject, modify. cbn [w_promise set_promise].
          do 2 eexists. split; [rewrite <- app_assoc; reflexivity|].
          split; [rewrite log_count_tail; reflexivity|].
          split; [intros v He0; discriminate He0|].
          intros e0 He0. injection He0 as <-. now rewrite Ht, Hcode.
      + unfold ret. cbv beta iota.
        exists [], Pending. split; [reflexivity|].
        split; [reflexivity|].
        split; [intros v He0; discriminate He0|].
        intros e0 He0. injection He0 as <-. now rewrite Ht. }
  destruct HX as [tail [p [HX Hp]]]. exists tail, p. split; [apply (run_promise_eq EX (mkWorld th hp st tr pr) _ HX) | exact Hp].
Qed.

(** C3, for a store failure that is a truthy value whose [code] is truthy:
    [insertOne] rejects with [ALREADY_EXISTS] and the message
    ["record with id = " + data.id + " already exists"] when
    [error.code == 11000] holds (JavaScript's loose equality: also for
    codes such as ["11000.0"], [" 11000"], ["0x2AF8"] or [[11000]]), and
    with the failure itself when it does not.  When the comparison or the
    message's conversion of [data.id] throws (an object whose own
    [toString] is not a function), the rejection handler throws and the
    promise stays pending; it also stays pending for a falsy failure.  A
    failure whose [code] is falsy is passed through. *)
Theorem insertOne_store_rejection (l : nat) (options e : jsval) (w : world) :
  f_collection (w_this w) <> None ->
  json_ok (inserted_heap (w_heap w) l) (VRef l) ->
  snd (store_step (w_store w) (inserted_heap (w_heap w) l) (SInsertOne (VRef l))) = Err e ->
  let h1 := inserted_heap (w_heap w) l in
  let code := err_prop h1 e "code" in
  snd (insertOne (VRef l) options w) =
  inr (OPromise
    (if truthy e then
       if truthy code then
         match loose_eq_11000 h1 code with
         | Some true =>
             match prim_string h1 (lookup_prop "id" (heap_get (w_heap w) l)) with
             | Some s => Rejected (VErr ModelError
                                     (VStr ("record with id = " ++ s ++ " already exists"))
                                     (VCode ALREADY_EXISTS))
             | None => Pending
             end
         | Some false => Rejected e
         | None => Pending
         end
       else Rejected e
     else Pending)).
Proof.
  intros Hc Hj He h1 code. destruct (insertOne_run l options w Hc Hj) as [tail [p [E [_ [_ Hp]]]]].
  rewrite E. simpl. now rewrite (Hp e He).
Qed.

(** C9. [insertOne] sets [data._id = data.id] on the caller's own object
    exactly when [data.id] is truthy (otherwise the heap is unchanged), and
    hands that same object ([VRef l]) to the store, after the write: the
    store works on the written heap.  The facade changes nothing else in
    the heap. *)
Theorem insertOne_writes_id_in_place (l : nat) (options : jsval) (w : world) :
  f_collection (w_this w) <> None ->
  json_ok (inserted_heap (w_heap w) l) (VRef l) ->
  let id := lookup_prop "id" (heap_get (w_heap w) l) in
  let w' := fst (insertOne (VRef l) options w) in
  w_heap w' = (if truthy id
               then heap_upd (w_heap w) l (set_prop "_id" id (heap_get (w_heap w) l))
               else w_heap w) /\
  w_store w' = fst (store_step (w_store w) (w_heap w') (SInsertOne (VRef l))) /\
  exists tail, w_trace w' = app (w_trace w) (EvStore (SInsertOne (VRef l)) :: tail).
Proof.
  intros Hc Hj id w'. destruct (insertOne_run l options w Hc Hj) as [tail [p [E _]]].
  unfold w'. rewrite E. simpl. split; [reflexivity|]. split; [reflexivity|]. eauto.
Qed.

(** C10. When the store rejects the insert with a falsy value, the promise
    [insertOne] returns stays pending: its rejection handler does nothing
    for a falsy value, and nothing else settles the promise. *)
Theorem insertOne_falsy_rejection_pending (l : nat) (options e : jsval) (w : world) :
  f_collection (w_this w) <> None ->
  json_ok (inserted_heap (w_heap w) l) (VRef l) ->
  snd (store_step (w_store w) (inserted_heap (w_heap w) l) (SInsertOne (VRef l))) = Err e ->
  truthy e = false ->
  snd (insertOne (VRef l) options w) = inr (OPromise Pending) /\
  w_promise (fst (insertOne (VRef l) options w)) = Pending.
Proof.
  intros Hc Hj He Ht. destruct (insertOne_run l options w Hc Hj) as [tail [p [E [_ [_ Hp]]]]].
  rewrite E. simpl. rewrite (Hp e He), Ht. auto.
Qed.

Lemma insertOne_store_rejection_witness :
  (snd (insertOne (VRef 4) VUndef
         (ex_world (Some "users") (ex_store no_fail [VObj [("_id", VStr "X")]]))) =
  inr (OPromise (Rejected (VErr ModelError (VStr "record with id = X already exists")
                             (VCode ALREADY_EXISTS))))) /\
  (snd (insertOne (VRef 4) VUndef
         (ex_world (Some "users")
            (ex_store (insert_fails (VErr DriverError (VStr "dup") (VStr " 11000.0"))) []))) =
  inr (OPromise (Rejected (VErr ModelError (VStr "record with id = X already exists")
                             (VCode ALREADY_EXISTS))))).
Proof.
  split.
  - rewrite (insertOne_store_rejection 4 VUndef dup_key_error); [reflexivity | discriminate | |].
    + intros u. vm_compute. discriminate.
    + reflexivity.
  - rewrite (insertOne_store_rejection 4 VUndef (VErr DriverError (VStr "dup") (VStr " 11000.0")));
      [vm_compute; reflexivity | discriminate | |].
    + intros u. vm_compute. discriminate.
    + reflexivity.
Defined.

(** C3, against the claim: the store rejects the insert with [0]; the
    promise [insertOne] returns stays pending instead of rejecting with
    [0]. *)
Lemma insertOne_zero_rejection_unsettled :
  snd (insertOne (VRef 4) VUndef (ex_world (Some "users") (ex_store (insert_fails (VNum 0)) []))) =
  inr (OPromise Pending).
Proof. vm_compute. reflexivity. Qed.

Lemma insertOne_writes_id_in_place_witness :
  w_heap (fst (insertOne (VRef 4) VUndef (ex_world (Some "users") (ex_store no_fail [])))) =
  heap_upd ex_heap 4 [("id", VStr "X"); ("_id", VStr "X")].
Proof.
  destruct (insertOne_writes_id_in_place 4 VUndef (ex_world (Some "users") (ex_store no_fail [])))
    as [H _]; [discriminate | intros u; vm_compute; discriminate |].
  rewrite H. reflexivity.
Defined.

Lemma insertOne_falsy_rejection_pending_witness :
  snd (insertOne (VRef 4) VUndef
         (ex_world (Some "users") (ex_store (insert_fails (VBool false)) []))) =
  inr (OPromise Pending).
Proof.
  apply (insertOne_falsy_rejection_pending 4 VUndef (VBool false)); [discriminate | | reflexivity | reflexivity].
  intros u. vm_compute. discriminate.
Defined.

(** ** The single-document operations *)

Lemma resolve_eq v w : w_promise w = Pending -> resolve v w = (set_promise w (Fulfilled v), inr tt).
Proof. intros H. unfold resolve, modify. now rewrite H. Qed.
Lemma reject_eq v w : w_promise w = Pending -> reject v w = (set_promise w (Rejected v), inr tt).
Proof. intros H. unfold reject, modify. now rewrite H. Qed.

Lemma bind_get_eq {B} (v : jsval) (key : string) (K : jsval -> M B) (w : world) :
  bind (get v key) K w =
  if is_nullish v then (w, inl (type_error key)) else K (err_prop (w_heap w) v key) w.
Proof. destruct v; reflexivity. Qed.

Lemma call_tail_eq (t : timer) (m : string) (c : store_call) (k : jsval -> M unit)
    (g : jsval -> jsval) (w : world) (cn : string) :
  f_collection (w_this w) = Some cn -> w_promise w = Pending ->
  (forall v w0, w_promise w0 = Pending -> k v w0 = (set_promise w0 (Fulfilled (g v)), inr tt)) ->
  (r <- coll_call m c ;; then_catch r (fun v => timer_stop t ;;; k v) (on_error t)) w =
  (call_result t c g w, inr tt).
Proof.
  intros Hc Hp Hk. rewrite (bind_inr _ _ _ _ _ (coll_call_eq m c w cn Hc)).
  unfold call_result. destruct (store_step (w_store w) (w_heap w) c) as [s' [v|e]]; cbn [fst snd].
  - unfold then_catch, swallow, try_catch. cbv beta.
    rewrite (bind_inr _ _ _ _ _ (timer_stop_eq _ _)). cbn [w_promise w_this w_heap w_store w_trace].
    rewrite Hk by exact Hp. destruct w. simpl in *. subst. reflexivity.
  - unfold then_catch, swallow, on_error, try_catch.
    destruct e; cbn [is_nullish];
      try (rewrite bind_get_eq; cbn [is_nullish]; destruct w; simpl in *; subst; reflexivity);
      (rewrite bind_get_eq; cbv iota;
       rewrite (bind_inr _ _ _ _ _ (timer_error_eq _ _ _));
       cbn [w_heap w_this w_store w_trace w_promise];
       rewrite reject_eq by exact Hp; destruct w; simpl in *; subst; reflexivity).
Qed.

Lemma json_ok_eq v w : json_ok (w_heap w) v -> exists x, json v w = (w, inr x).
Proof.
  intros H. unfold json. destruct (json_stringify (w_heap w) v) as [[u|s]|] eqn:J.
  - exfalso. exact (H u J).
  - eauto.
  - eauto.
Qed.

Lemma new_promise_eq (ex : M unit) (w w' : world) :
  ex (set_promise w Pending) = (w', inr tt) -> new_promise ex w = (w', inr (w_promise w')).
Proof. intros H. unfold new_promise. now rewrite H. Qed.

Lemma findOneById_run (id options : jsval) (w : world) (cn : string) :
  f_collection (w_this w) = Some cn -> json_ok (w_heap w) id -> json_ok (w_heap w) options ->
  exists msg,
  let t := mkTimer "mongo" "findOneById" (st_clock (w_store w)) msg in
  let w' := call_result t (SFindOne (VObj [("_id", id)]) VUndef)
              (fun doc => if truthy doc then doc else VNull) (set_promise w Pending) in
  findOneById id options w = (w', inr (OPromise (w_promise w'))).
Proof.
  intros Hc Hi Ho. destruct w as [th hp st tr pr]. simpl in *.
  destruct (json_ok_eq id (mkWorld th hp st tr Pending) Hi) as [ij Ei].
  destruct (json_ok_eq options (mkWorld th hp st tr Pending) Ho) as [oj Eo].
  eexists. cbv zeta. unfold findOneById. apply run_promise_eq.
  cbn [set_promise w_this w_heap w_store w_trace w_promise].
  stp (createTimer_eq "findOneById" (mkWorld th hp st tr Pending)). stp Ei. stp Eo.
  apply (call_tail_eq _ "findOne" _ (fun doc => if truthy doc then resolve doc else resolve VNull)
           _ (mkWorld th hp st tr Pending) cn Hc eq_refl).
  intros v w0 H. destruct (truthy v); apply resolve_eq; exact H.
Qed.

Lemma findOne_run (query options : jsval) (w : world) (cn : string) :
  f_collection (w_this w) = Some cn -> json_ok (w_heap w) query -> json_ok (w_heap w) options ->
  exists msg,
  let t := mkTimer "mongo" "findOne" (st_clock (w_store w)) msg in
  let w' := call_result t (SFindOne query options)
              (fun doc => if truthy doc then doc else VNull) (set_promise w Pending) in
  findOne query options w = (w', inr (OPromise (w_promise w'))).
Proof.
  intros Hc Hq Ho. destruct w as [th hp st tr pr]. simpl in *.
  destruct (json_ok_eq query (mkWorld th hp st tr Pending) Hq) as [qj Eq].
  destruct (json_ok_eq options (mkWorld th hp st tr Pending) Ho) as [oj Eo].
  eexists. cbv zeta. unfold findOne. apply run_promise_eq.
  cbn [set_promise w_this w_heap w_store w_trace w_promise].
  stp (createTimer_eq "findOne" (mkWorld th hp st tr Pending)). stp Eq. stp Eo.
  apply (call_tail_eq _ "findOne" _ (fun doc => if truthy doc then resolve doc else resolve VNull)
           _ (mkWorld th hp st tr Pending) cn Hc eq_refl).
  intros v w0 H. destruct (truthy v); apply resolve_eq; exact H.
Qed.

Lemma updateOne_run (filter data options : jsval) (w : world) (cn : string) :
  f_collection (w_this w) = Some cn -> json_ok (w_heap w) filter -> json_ok (w_heap w) data ->
  json_ok (w_heap w) options ->
  exists msg,
  let t := mkTimer "mongo" "updateOne" (st_clock (w_store w)) msg in
  let w' := call_result t (SUpdate filter data (VObj [])) (fun _ => data) (set_promise w Pending) in
  updateOne filter data options w = (w', inr (OPromise (w_promise w'))).
Proof.
  intros Hc Hf Hd Ho. destruct w as [th hp st tr pr]. simpl in *.
  destruct (json_ok_eq filter (mkWorld th hp st tr Pending) Hf) as [fj Ef].
  destruct (json_ok_eq data (mkWorld th hp st tr Pending) Hd) as [dj Ed].
  destruct (json_ok_eq options (mkWorld th hp st tr Pending) Ho) as [oj Eo].
  eexists. cbv zeta. unfold updateOne. apply run_promise_eq.
  cbn [set_promise w_this w_heap w_store w_trace w_promise].
  stp (createTimer_eq "updateOne" (mkWorld th hp st tr Pending)). stp Ef. stp Ed. stp Eo.
  apply (call_tail_eq _ "update" _ (fun _ => resolve data)
           _ (mkWorld th hp st tr Pending) cn Hc eq_refl).
  intros v w0 H. apply resolve_eq; exact H.
Qed.

Lemma count_run (filter options : jsval) (w : world) (cn : string) :
  f_collection (w_this w) = Some cn -> json_ok (w_heap w) filter -> json_ok (w_heap w) options ->
  exists msg,
  let t := mkTimer "mongo" "count" (st_clock (w_store w)) msg in
  let w' := call_result t (SCount filter) (fun data => data) (set_promise w Pending) in
  count filter options w = (w', inr (OPromise (w_promise w'))).
Proof.
  intros Hc Hf Ho. destruct w as [th hp st tr pr]. simpl in *.
  destruct (json_ok_eq filter (mkWorld th hp st tr pr) Hf) as [fj Ef].
  destruct (json_ok_eq options (mkWorld th hp st tr pr) Ho) as [oj Eo].
  eexists. cbv zeta. unfold count, run_sync, try_catch.
  stp (createTimer_eq "count" (mkWorld th hp st tr pr)). stp Ef. stp Eo.
  unfold promise.
  stp (new_promise_eq _ (mkWorld th hp st tr pr) _
         (call_tail_eq _ "count" _ resolve (fun data => data) (mkWorld th hp st tr Pending) cn Hc eq_refl
            (fun v w0 H => resolve_eq v w0 H))).
  reflexivity.
Qed.

Lemma removeOne_run (filter options : jsval) (w : world) (cn : string) :
  f_collection (w_this w) = Some cn -> json_ok (w_heap w) filter -> json_ok (w_heap w) options ->
  exists msg,
  let t := mkTimer "mongo" "findOne" (st_clock (w_store w)) msg in
  let w' := call_result t (SRemove filter (VObj [])) (fun data => data) (set_promise w Pending) in
  removeOne filter options w = (w', inr (OPromise (w_promise w'))).
Proof.
  intros Hc Hf Ho. destruct w as [th hp st tr pr]. simpl in *.
  destruct (json_ok_eq filter (mkWorld th hp st tr pr) Hf) as [fj Ef].
  destruct (json_ok_eq options (mkWorld th hp st tr pr) Ho) as [oj Eo].
  eexists. cbv zeta. unfold removeOne, run_sync, try_catch.
  stp (createTimer_eq "findOne" (mkWorld th hp st tr pr)). stp Ef. stp Eo.
  unfold promise.
  stp (new_promise_eq _ (mkWorld th hp st tr pr) _
         (call_tail_eq _ "remove" _ resolve (fun data => data) (mkWorld th hp st tr Pending) cn Hc eq_refl
            (fun v w0 H => resolve_eq v w0 H))).
  reflexivity.
Qed.

Lemma findOneAndUpdate_run (filter update options : jsval) (w : world) (cn : string) :
  f_collection (w_this w) = Some cn ->
  (truthy options = false \/ exists l, options = VRef l) ->
  let h' := fst (fau_options (w_heap w) options) in
  let o' := snd (fau_options (w_heap w) options) in
  json_ok h' filter -> json_ok h' update -> json_ok h' o' ->
  exists msg,
  let t := mkTimer "mongo" "findOneAndUpdate" (st_clock (w_store w)) msg in
  let w' := call_result t (SFindOneAndUpdate filter update o') (fun d => d)
              (mkWorld (w_this w) h' (w_store w) (w_trace w) Pending) in
  findOneAndUpdate filter update options w = (w', inr (OPromise (w_promise w'))).
Proof.
  intros Hc Hopt h' o' Hf Hu Ho. destruct w as [th hp st tr pr]. simpl in *.
  destruct (json_ok_eq filter (mkWorld th h' st tr pr) Hf) as [fj Ef].
  destruct (json_ok_eq update (mkWorld th h' st tr pr) Hu) as [uj Eu].
  destruct (json_ok_eq o' (mkWorld th h' st tr pr) Ho) as [oj Eo].
  eexists. cbv zeta. unfold findOneAndUpdate, run_sync, try_catch.
  stp (createTimer_eq "findOneAndUpdate" (mkWorld th hp st tr pr)).
  assert (EO : (if negb (truthy options) then ret (VObj [("returnOriginal", VBool false)])
                else ro <- get options "returnOriginal" ;;
                     match ro with
                     | VUndef => put options "returnOriginal" (VBool false) ;;; ret options
                     | _ => ret options
                     end) (mkWorld th hp st tr pr) = (mkWorld th h' st tr pr, inr o')).
  { unfold h', o', fau_options. destruct Hopt as [Ht | [l ->]].
    - rewrite Ht. reflexivity.
    - unfold bind. simpl. destruct (lookup_prop "returnOriginal" (heap_get hp l)); reflexivity. }
  stp EO. stp Ef. stp Eu. stp Eo.
  unfold promise.
  stp (new_promise_eq _ (mkWorld th h' st tr pr) _
         (call_tail_eq _ "findOneAndUpdate" _ resolve (fun d => d) (mkWorld th h' st tr Pending) cn Hc eq_refl
            (fun v w0 H => resolve_eq v w0 H))).
  reflexivity.
Qed.

Lemma freeze_ref_prop (h : heap) (b : nat) (k : string) :
  prop (freeze h (VRef b)) k = snapshot h (List.length h) (lookup_prop k (heap_get h b)).
Proof.
  unfold freeze. simpl. rewrite snapshot_obj. simpl.
  rewrite lookup_prop_map by (destruct (List.length h); reflexivity). reflexivity.
Qed.

Lemma snapshot_falsy h n v : truthy v = false -> snapshot h n v = v.
Proof. intros H. destruct v; simpl in H; try discriminate; destruct n; reflexivity. Qed.

Lemma lookup_set_same k v o : lookup_prop k (set_prop k v o) = v.
Proof.
  unfold lookup_prop. induction o as [|[k1 v1] o IH]; simpl.
  - now rewrite String.eqb_refl.
  - destruct (String.eqb_spec k1 k); simpl.
    + now rewrite String.eqb_refl.
    + destruct (String.eqb_spec k1 k); [congruence|exact IH].
Qed.

Lemma heap_upd_out h l o : List.length h <= l -> heap_upd h l o = h.
Proof.
  revert l. induction h as [|o' h IH]; intros [|l] Hl; simpl in *; try lia; auto.
  f_equal. apply IH. lia.
Qed.

Lemma fau_not_original (h : heap) (options : jsval) :
  (truthy options = false \/
   exists l, options = VRef l /\ truthy (lookup_prop "returnOriginal" (heap_get h l)) = false) ->
  truthy (prop (freeze (fst (fau_options h options)) (snd (fau_options h options))) "returnOriginal") = false.
Proof.
  intros [Ht | [l [-> Hl]]].
  - unfold fau_options. rewrite Ht. reflexivity.
  - unfold fau_options. cbn [truthy negb].
    destruct (lookup_prop "returnOriginal" (heap_get h l)) eqn:E; cbn [fst snd];
      try (rewrite freeze_ref_prop, E, snapshot_falsy; assumption).
    rewrite freeze_ref_prop.
    destruct (Nat.lt_ge_cases l (List.length h)) as [Hlt|Hge].
    + rewrite heap_get_upd by exact Hlt. rewrite lookup_set_same, snapshot_falsy; reflexivity.
    + rewrite heap_upd_out by exact Hge. rewrite E, snapshot_falsy; reflexivity.
Qed.

(** C6. With [returnOriginal] unset or false (and the arguments serializable, the store
    not failing), [findOneAndUpdate] fulfils with the post-update document. *)
Theorem findOneAndUpdate_returns_updated (filter update options : jsval) (w : world) :
  f_collection (w_this w) <> None ->
  no_failures (w_store w) ->
  (truthy options = false \/
   exists l, options = VRef l /\ truthy (lookup_prop "returnOriginal" (heap_get (w_heap w) l)) = false) ->
  let h' := fst (fau_options (w_heap w) options) in
  json_ok h' filter -> json_ok h' update -> json_ok h' (snd (fau_options (w_heap w) options)) ->
  snd (findOneAndUpdate filter update options w) =
  inr (OPromise (Fulfilled (post_update (w_store w) h' filter update))).
Proof.
  intros Hc Hno Hopt h' Hf Hu Ho.
  destruct (f_collection (w_this w)) as [cn|] eqn:Ec; [|congruence].
  assert (Hopt' : truthy options = false \/ exists l, options = VRef l)
    by (destruct Hopt as [H | [l [H _]]]; eauto).
  destruct (findOneAndUpdate_run filter update options w cn Ec Hopt' Hf Hu Ho) as [msg E].
  rewrite E. cbn [snd]. f_equal. f_equal.
  unfold call_result. cbn [w_store w_heap w_promise w_this w_trace]. fold h'.
  unfold store_step. rewrite Hno. cbv zeta.
  pose proof (fau_not_original (w_heap w) options Hopt) as Hro. fold h' in Hro.
  unfold post_update. destruct (find_index _ _) as [i|]; cbn [w_promise]; [|reflexivity].
  now rewrite Hro.
Qed.

Lemma call_result_erase (a b : string) (z : Z) (m1 m2 : jsval) c g w :
  let w1 := call_result (mkTimer a b z m1) c g w in
  let w2 := call_result (mkTimer a b z m2) c g w in
  w_this w1 = w_this w2 /\ w_heap w1 = w_heap w2 /\ w_store w1 = w_store w2 /\
  w_promise w1 = w_promise w2 /\ map erase_message (w_trace w1) = map erase_message (w_trace w2).
Proof.
  unfold call_result. destruct (store_step (w_store w) (w_heap w) c) as [s' [v|e]];
    [| destruct (is_nullish e)]; cbn [w_this w_heap w_store w_promise w_trace];
    repeat split; rewrite ?map_app; unfold log_tail; cbn [w_this];
    destruct (f_debugger (w_this w)) as [|[|]]; reflexivity.
Qed.


Lemma run_promise_throw (ex : M unit) (w w' : world) (e : jsval) :
  ex (set_promise w Pending) = (w', inl e) -> w_promise w' = Pending ->
  run_sync (promise (new_promise ex)) w = (set_promise w' (Rejected e), inr (OPromise (Rejected e))).
Proof.
  intros H Hp. unfold run_sync, promise, new_promise, try_catch, bind. rewrite H.
  unfold reject, modify. simpl. now rewrite Hp.
Qed.

Lemma call_result_trace t c g w :
  exists tail, w_trace (call_result t c g w) = app (w_trace w) (EvStore c :: tail) /\
    forall c', ~ In (EvStore c') tail.
Proof.
  unfold call_result. destruct (store_step (w_store w) (w_heap w) c) as [s' [v|e]];
    [| destruct (is_nullish e)]; cbn [w_trace].
  - eexists. split; [rewrite <- app_assoc; reflexivity|].
    unfold log_tail; cbn [w_this]. destruct (f_debugger (w_this w)) as [|[|]];
      simpl; intros c' H; intuition discriminate.
  - exists []. split; [reflexivity | intros c' []].
  - eexists. split; [rewrite <- app_assoc; reflexivity|].
    unfold log_tail; cbn [w_this]. destruct (f_debugger (w_this w)) as [|[|]];
      simpl; intros c' H; intuition discriminate.
Qed.

(** [JSON.stringify] of [id], or of [options] after a serializable [id],
    throws: [findOneById] rejects before the lookup. *)
Lemma findOneById_throws (id o : jsval) (w : world) :
  (exists u, json_stringify (w_heap w) id = Some (inl u)) \/
  (json_ok (w_heap w) id /\ exists u, json_stringify (w_heap w) o = Some (inl u)) ->
  findOneById id o w = (set_promise w (Rejected cycle_error), inr (OPromise (Rejected cycle_error))).
Proof.
  intros H. destruct w as [th hp st tr pr]. simpl in H.
  change (set_promise (mkWorld th hp st tr pr) (Rejected cycle_error))
    with (set_promise (mkWorld th hp st tr Pending) (Rejected cycle_error)).
  unfold findOneById. apply run_promise_throw; [|reflexivity].
  cbn [set_promise w_this w_heap w_store w_trace w_promise].
  stp (createTimer_eq "findOneById" (mkWorld th hp st tr Pending)).
  destruct H as [[u Ji] | [Hi [u Jo]]].
  - apply bind_inl. unfold json. simpl. rewrite Ji. reflexivity.
  - destruct (json_ok_eq id (mkWorld th hp st tr Pending) Hi) as [ij Ei]. stp Ei.
    apply bind_inl. unfold json. simpl. rewrite Jo. reflexivity.
Qed.

(** Without a handle, [findOneById] of serializable arguments rejects when
    it reads [this._collection.findOne]. *)
Lemma findOneById_no_handle (id o : jsval) (w : world) :
  f_collection (w_this w) = None -> json_ok (w_heap w) id -> json_ok (w_heap w) o ->
  findOneById id o w =
    (set_promise w (Rejected (type_error "findOne")), inr (OPromise (Rejected (type_error "findOne")))).
Proof.
  intros Ec Hi Ho. destruct w as [th hp st tr pr]. simpl in *.
  change (set_promise (mkWorld th hp st tr pr) (Rejected (type_error "findOne")))
    with (set_promise (mkWorld th hp st tr Pending) (Rejected (type_error "findOne"))).
  unfold findOneById. apply run_promise_throw; [|reflexivity].
  cbn [set_promise w_this w_heap w_store w_trace w_promise].
  stp (createTimer_eq "findOneById" (mkWorld th hp st tr Pending)).
  destruct (json_ok_eq id (mkWorld th hp st tr Pending) Hi) as [ij Ei]. stp Ei.
  destruct (json_ok_eq o (mkWorld th hp st tr Pending) Ho) as [oj Eo]. stp Eo.
  apply bind_inl. unfold coll_call. simpl. rewrite Ec. reflexivity.
Qed.

(** Two runs of [findOneById] with serializable options agree up to the log
    messages. *)
Lemma findOneById_runs_agree (id o1 o2 : jsval) (w : world) :
  json_ok (w_heap w) o1 -> json_ok (w_heap w) o2 ->
  let w1 := fst (findOneById id o1 w) in
  let w2 := fst (findOneById id o2 w) in
  snd (findOneById id o1 w) = snd (findOneById id o2 w) /\
  w_this w1 = w_this w2 /\ w_heap w1 = w_heap w2 /\ w_store w1 = w_store w2 /\
  w_promise w1 = w_promise w2 /\ map erase_message (w_trace w1) = map erase_message (w_trace w2).
Proof.
  intros H1 H2 w1 w2. subst w1 w2.
  destruct w as [th hp st tr pr]. simpl in H1, H2.
  set (W := mkWorld th hp st tr Pending).
  assert (Hcase : (exists u, json_stringify hp id = Some (inl u)) \/ json_ok hp id).
  { destruct (json_stringify hp id) as [[u|s]|] eqn:Ji;
      [left; eauto | right; intros u' H; congruence | right; intros u' H; congruence]. }
  destruct Hcase as [[u Ji] | Hi].
  - (* [JSON.stringify(id)] throws, before [options] is read *)
    assert (E : forall o, findOneById id o (mkWorld th hp st tr pr) =
              (set_promise W (Rejected (VErr TypeError (VStr "Converting circular structure to JSON") VUndef)),
               inr (OPromise (Rejected (VErr TypeError (VStr "Converting circular structure to JSON") VUndef))))).
    { intros o. unfold findOneById. apply run_promise_throw; [|reflexivity].
      cbn [set_promise w_this w_heap w_store w_trace w_promise].
      stp (createTimer_eq "findOneById" W).
      apply bind_inl. unfold json. simpl. rewrite Ji. reflexivity. }
    rewrite !E. repeat split.
  - destruct (f_collection th) as [cn|] eqn:Ec.
    + destruct (findOneById_run id o1 (mkWorld th hp st tr pr) cn Ec Hi H1) as [m1 E1].
      destruct (findOneById_run id o2 (mkWorld th hp st tr pr) cn Ec Hi H2) as [m2 E2].
      rewrite E1, E2. cbn [fst snd w_store].
      destruct (call_result_erase "mongo" "findOneById" (st_clock st) m1 m2
                  (SFindOne (VObj [("_id", id)]) VUndef) (fun doc => if truthy doc then doc else VNull)
                  (set_promise (mkWorld th hp st tr pr) Pending)) as [Ht [Hh [Hs [Hp Hl]]]].
      rewrite Hp. repeat split; first [reflexivity | assumption].
    + (* no handle: the lookup of [findOne] throws after the arguments are serialized *)
      assert (E : forall o, json_ok hp o -> findOneById id o (mkWorld th hp st tr pr) =
                (set_promise W (Rejected (type_error "findOne")), inr (OPromise (Rejected (type_error "findOne"))))).
      { intros o Ho. unfold findOneById. apply run_promise_throw; [|reflexivity].
        cbn [set_promise w_this w_heap w_store w_trace w_promise].
        stp (createTimer_eq "findOneById" W).
        destruct (json_ok_eq id W Hi) as [ij Ei]. stp Ei.
        destruct (json_ok_eq o W Ho) as [oj Eo]. stp Eo.
        apply bind_inl. unfold coll_call. simpl. rewrite Ec. reflexivity. }
      rewrite (E o1 H1), (E o2 H2). repeat split.
Qed.

(** C8. [findOneById] never forwards its [options] to the store. For every
    [options] the only store call it makes is [findOne({_id: id})] with no
    options, and it makes it whenever there is a handle and both arguments
    serialize. With any two serializable options values the runs agree in
    outcome, heap, store and promise, and their traces differ only in the log
    messages. A non-serializable [options] value makes it reject with the
    [TypeError] of [JSON.stringify], leaving store and trace untouched. *)
Theorem findOneById_ignores_options (id o1 o2 : jsval) (w : world) :
  let w1 := fst (findOneById id o1 w) in
  let w2 := fst (findOneById id o2 w) in
  (exists tail, w_trace w1 = app (w_trace w) tail /\
     (forall c, In (EvStore c) tail -> c = SFindOne (VObj [("_id", id)]) VUndef) /\
     (f_collection (w_this w) <> None -> json_ok (w_heap w) id -> json_ok (w_heap w) o1 ->
      In (EvStore (SFindOne (VObj [("_id", id)]) VUndef)) tail)) /\
  (json_ok (w_heap w) o1 -> json_ok (w_heap w) o2 ->
   snd (findOneById id o1 w) = snd (findOneById id o2 w) /\
   w_this w1 = w_this w2 /\ w_heap w1 = w_heap w2 /\ w_store w1 = w_store w2 /\
   w_promise w1 = w_promise w2 /\ map erase_message (w_trace w1) = map erase_message (w_trace w2)) /\
  ((exists u, json_stringify (w_heap w) o1 = Some (inl u)) ->
   findOneById id o1 w = (set_promise w (Rejected cycle_error), inr (OPromise (Rejected cycle_error)))).
Proof.
  intros w1 w2. subst w1 w2. split; [|split].
  - destruct (json_stringify (w_heap w) id) as [[u|si]|] eqn:Ji.
    + rewrite (findOneById_throws id o1 w (or_introl (ex_intro _ u Ji))).
      exists []. split; [symmetry; apply app_nil_r|]. split; [intros c []|].
      intros _ Hi. exfalso. exact (Hi u Ji).
    + assert (Hi : json_ok (w_heap w) id) by (intros u' H; congruence).
      clear Ji. destruct (json_stringify (w_heap w) o1) as [[u|so]|] eqn:Jo.
      * rewrite (findOneById_throws id o1 w (or_intror (conj Hi (ex_intro _ u Jo)))).
        exists []. split; [symmetry; apply app_nil_r|]. split; [intros c []|].
        intros _ _ Ho. exfalso. exact (Ho u Jo).
      * assert (Ho : json_ok (w_heap w) o1) by (intros u' H; congruence). clear Jo.
        { destruct (f_collection (w_this w)) as [cn|] eqn:Ec.
          - destruct (findOneById_run id o1 w cn Ec Hi Ho) as [m E]. rewrite E. cbv zeta. cbn [fst].
            match goal with |- context [call_result ?t ?c ?g ?w0] =>
              destruct (call_result_trace t c g w0) as [tail [Et Hn]] end.
            rewrite Et. exists (EvStore (SFindOne (VObj [("_id", id)]) VUndef) :: tail).
            split; [reflexivity|]. split.
            + intros c [Hc|Hc]; [congruence | exfalso; exact (Hn c Hc)].
            + intros _ _ _. left. reflexivity.
          - rewrite (findOneById_no_handle id o1 w Ec Hi Ho).
            exists []. split; [symmetry; apply app_nil_r|]. split; [intros c []|].
            intros H. exfalso. exact (H eq_refl). }
      * assert (Ho : json_ok (w_heap w) o1) by (intros u' H; congruence). clear Jo.
        { destruct (f_collection (w_this w)) as [cn|] eqn:Ec.
          - destruct (findOneById_run id o1 w cn Ec Hi Ho) as [m E]. rewrite E. cbv zeta. cbn [fst].
            match goal with |- context [call_result ?t ?c ?g ?w0] =>
              destruct (call_result_trace t c g w0) as [tail [Et Hn]] end.
            rewrite Et. exists (EvStore (SFindOne (VObj [("_id", id)]) VUndef) :: tail).
            split; [reflexivity|]. split.
            + intros c [Hc|Hc]; [congruence | exfalso; exact (Hn c Hc)].
            + intros _ _ _. left. reflexivity.
          - rewrite (findOneById_no_handle id o1 w Ec Hi Ho).
            exists []. split; [symmetry; apply app_nil_r|]. split; [intros c []|].
            intros H. exfalso. exact (H eq_refl). }
    + assert (Hi : json_ok (w_heap w) id) by (intros u' H; congruence).
      clear Ji. destruct (json_stringify (w_heap w) o1) as [[u|so]|] eqn:Jo.
      * rewrite (findOneById_throws id o1 w (or_intror (conj Hi (ex_intro _ u Jo)))).
        exists []. split; [symmetry; apply app_nil_r|]. split; [intros c []|].
        intros _ _ Ho. exfalso. exact (Ho u Jo).
      * assert (Ho : json_ok (w_heap w) o1) by (intros u' H; congruence). clear Jo.
        { destruct (f_collection (w_this w)) as [cn|] eqn:Ec.
          - destruct (findOneById_run id o1 w cn Ec Hi Ho) as [m E]. rewrite E. cbv zeta. cbn [fst].
            match goal with |- context [call_result ?t ?c ?g ?w0] =>
              destruct (call_result_trace t c g w0) as [tail [Et Hn]] end.
            rewrite Et. exists (EvStore (SFindOne (VObj [("_id", id)]) VUndef) :: tail).
            split; [reflexivity|]. split.
            + intros c [Hc|Hc]; [congruence | exfalso; exact (Hn c Hc)].
            + intros _ _ _. left. reflexivity.
          - rewrite (findOneById_no_handle id o1 w Ec Hi Ho).
            exists []. split; [symmetry; apply app_nil_r|]. split; [intros c []|].
            intros H. exfalso. exact (H eq_refl). }
      * assert (Ho : json_ok (w_heap w) o1) by (intros u' H; congruence). clear Jo.
        { destruct (f_collection (w_this w)) as [cn|] eqn:Ec.
          - destruct (findOneById_run id o1 w cn Ec Hi Ho) as [m E]. rewrite E. cbv zeta. cbn [fst].
            match goal with |- context [call_result ?t ?c ?g ?w0] =>
              destruct (call_result_trace t c g w0) as [tail [Et Hn]] end.
            rewrite Et. exists (EvStore (SFindOne (VObj [("_id", id)]) VUndef) :: tail).
            split; [reflexivity|]. split.
            + intros c [Hc|Hc]; [congruence | exfalso; exact (Hn c Hc)].
            + intros _ _ _. left. reflexivity.
          - rewrite (findOneById_no_handle id o1 w Ec Hi Ho).
            exists []. split; [symmetry; apply app_nil_r|]. split; [intros c []|].
            intros H. exfalso. exact (H eq_refl). }
  - intros H1 H2. exact (findOneById_runs_agree id o1 o2 w H1 H2).
  - intros [u Jo]. destruct (json_stringify (w_heap w) id) as [[ui|si]|] eqn:Ji.
    + exact (findOneById_throws id o1 w (or_introl (ex_intro _ ui Ji))).
    + apply findOneById_throws. right. split; [intros u' H; congruence | exists u; exact Jo].
    + apply findOneById_throws. right. split; [intros u' H; congruence | exists u; exact Jo].
Qed.

Lemma findOneAndUpdate_returns_updated_witness :
  snd (findOneAndUpdate (VObj []) (VObj [("v", VNum 1)]) VUndef
         (ex_world (Some "users") (ex_store no_fail [VObj [("_id", VNum 1); ("v", VNum 0)]]))) =
  inr (OPromise (Fulfilled (VObj [("v", VNum 1)]))).
Proof.
  rewrite (findOneAndUpdate_returns_updated (VObj []) (VObj [("v", VNum 1)]) VUndef
             (ex_world (Some "users") (ex_store no_fail [VObj [("_id", VNum 1); ("v", VNum 0)]]))).
  - vm_compute. reflexivity.
  - vm_compute. discriminate.
  - intros c. reflexivity.
  - left. reflexivity.
  - intros u. vm_compute. discriminate.
  - intros u. vm_compute. discriminate.
  - intros u. vm_compute. discriminate.
Defined.

Lemma findOneById_ignores_options_witness :
  (snd (findOneById (VStr "X") VUndef (ex_world (Some "users") (ex_store no_fail []))) =
   snd (findOneById (VStr "X") (VRef 2) (ex_world (Some "users") (ex_store no_fail [])))) /\
  (findOneById (VStr "X") (VRef 5)
     (mkWorld (ex_facade (Some "users")) cyclic_heap (ex_store no_fail []) [] Pending) =
   (set_promise (mkWorld (ex_facade (Some "users")) cyclic_heap (ex_store no_fail []) [] Pending)
      (Rejected cycle_error), inr (OPromise (Rejected cycle_error)))).
Proof.
  split.
  - destruct (findOneById_ignores_options (VStr "X") VUndef (VRef 2)
                (ex_world (Some "users") (ex_store no_fail []))) as [_ [H _]].
    exact (proj1 (H ltac:(intros u; vm_compute; discriminate) ltac:(intros u; vm_compute; discriminate))).
  - destruct (findOneById_ignores_options (VStr "X") (VRef 5) VUndef
                (mkWorld (ex_facade (Some "users")) cyclic_heap (ex_store no_fail []) [] Pending))
      as [_ [_ H]].
    exact (H (ex_intro _ tt eq_refl)).
Defined.

(** A cyclic [options] object makes [findOneById] reject where a plain one does not. *)
Lemma findOneById_cyclic_options_rejects :
  let w := mkWorld (ex_facade (Some "users")) (app ex_heap [[("self", VRef 5)]]) (ex_store no_fail []) [] Pending in
  snd (findOneById (VStr "X") (VRef 5) w) =
    inr (OPromise (Rejected (VErr TypeError (VStr "Converting circular structure to JSON") VUndef))) /\
  snd (findOneById (VStr "X") VUndef w) = inr (OPromise (Fulfilled VNull)).
Proof. split; vm_compute; reflexivity. Qed.

(** C7. [aggregate] passes [pipeline] and [options] to the store and returns
    its result as is (a failure is thrown synchronously).  Its only record is
    the one [stop] delivers before the store call, with duration 0: no record
    times the aggregation. *)
Theorem aggregate_passes_through (pipeline options : jsval) (w : world) :
  f_collection (w_this w) <> None ->
  json_ok (w_heap w) pipeline -> json_ok (w_heap w) options ->
  let c := SAggregate pipeline options in
  exists msg,
  aggregate pipeline options w =
  (mkWorld (w_this w) (w_heap w) (fst (store_step (w_store w) (w_heap w) c))
     (app (w_trace w) (app (log_tail w (mkRecord "mongo" "aggregate" msg 0 None)) [EvStore c]))
     (w_promise w),
   inr (match snd (store_step (w_store w) (w_heap w) c) with
        | Ok v => OValue v
        | Err e => OThrow e
        end)).
Proof.
  intros Hc Hp Ho c. destruct (f_collection (w_this w)) as [cn|] eqn:Ec; [|congruence].
  destruct w as [th hp st tr pr]. simpl in *.
  destruct (json_ok_eq pipeline (mkWorld th hp st tr pr) Hp) as [pj Ep].
  destruct (json_ok_eq options (mkWorld th hp st tr pr) Ho) as [oj Eo].
  eexists. unfold aggregate, run_sync, try_catch.
  stp (createTimer_eq "aggregate" (mkWorld th hp st tr pr)). stp Ep. stp Eo.
  stp (timer_stop_eq _ (mkWorld th hp st tr pr)).
  stp (coll_call_eq "aggregate" c (mkWorld th hp st (app tr (log_tail (mkWorld th hp st tr pr) _)) pr) cn Ec).
  unfold stop_record. cbn [tm_category tm_name tm_message tm_start set_message].
  rewrite Z.sub_diag, <- app_assoc.
  destruct (snd (store_step st hp c)); reflexivity.
Qed.

Lemma aggregate_passes_through_witness :
  snd (aggregate (VArr []) VUndef (ex_world (Some "users") (ex_store no_fail []))) =
  inr (OValue (VObj [("pipeline", VArr []); ("options", VUndef)])).
Proof.
  destruct (aggregate_passes_through (VArr []) VUndef (ex_world (Some "users") (ex_store no_fail []))
              ltac:(vm_compute; discriminate) ltac:(intros u; vm_compute; discriminate)
              ltac:(intros u; vm_compute; discriminate)) as [msg E].
  rewrite E. vm_compute. reflexivity.
Defined.

Lemma cursor_call_eq c w :
  cursor_call c w =
  (mkWorld (w_this w) (w_heap w) (fst (store_step (w_store w) (w_heap w) c))
     (app (w_trace w) [EvStore c]) (w_promise w),
   inr (snd (store_step (w_store w) (w_heap w) c))).
Proof. unfold cursor_call. destruct (store_step _ _ _). reflexivity. Qed.


Lemma store_step_cursor_count s h cu : no_failures s ->
  store_step s h (SCursorCount cu) =
  (st_with s (st_docs s) (st_indexes s),
   Ok (VNum (Z.of_nat (List.length (filter (st_matches s (freeze h (cur_filter cu))) (st_docs s)))))).
Proof. intros H. unfold store_step. now rewrite H. Qed.

Lemma store_step_cursor_array s h cu : no_failures s ->
  store_step s h (SCursorToArray cu) =
  (st_with s (st_docs s) (st_indexes s),
   Ok (VArr (apply_limit (cur_limit cu) (apply_skip (cur_skip cu)
         (st_order s (freeze h (cur_sort cu)) (filter (st_matches s (freeze h (cur_filter cu))) (st_docs s))))))).
Proof. intros H. unfold store_step. now rewrite H. Qed.

(** C5. Once the chain is run (store not failing, filter serializable) it
    resolves with [{total, docs}]: [total] counts every document the filter
    matches, whatever the limit and offset; [docs] is the sorted selection
    after skipping [offset] and cutting at [limit] ([0] or unset: no cut), so
    a positive limit [n] yields at most [n] documents, and, when the sort keeps
    every document, exactly [min n m] of them, [m] being the number of
    matching documents left after the offset (3 for ten matches and limit 3). *)
Theorem find_total_ignores_paging (c : chain) (w : world) :
  ch_collection c <> None -> no_failures (w_store w) -> json_ok (w_heap w) (ch_filter c) ->
  let s := w_store w in let h := w_heap w in
  let sel := filter (st_matches s (freeze h (ch_filter c))) (st_docs s) in
  let docs := apply_limit (ch_limit c) (apply_skip (ch_offset c) (st_order s (freeze h (ch_sort c)) sel)) in
  snd (chain_exec c w) =
    inr (OPromise (Fulfilled (VObj [("total", VNum (Z.of_nat (List.length sel))); ("docs", VArr docs)]))) /\
  (forall n, ch_limit c = VNum (Z.pos n) -> List.length docs <= Pos.to_nat n) /\
  ((forall k xs, List.length (st_order s k xs) = List.length xs) ->
   forall n, ch_limit c = VNum (Z.pos n) ->
   List.length docs = Nat.min (Pos.to_nat n) (List.length (apply_skip (ch_offset c) sel))).
Proof.
  intros Hc Hno Hf s h sel docs. split; [|split].
  - destruct (ch_collection c) as [cn|] eqn:Ec; [|congruence].
    destruct w as [th hp st tr pr]. simpl in *.
    destruct (json_ok_eq (ch_filter c) (mkWorld th hp st tr pr) Hf) as [fj Ef].
    unfold chain_exec, run_sync, try_catch. rewrite Ec. stp Ef.
    unfold promise, find_onExec.
    unshelve erewrite (bind_inr _ _ _ _ _ (new_promise_eq _ (mkWorld th hp st tr pr) _ _)).
    2: {
      cbn [set_promise w_this w_heap w_store w_trace w_promise].
    stp (timer_stop_eq _ (mkWorld th hp st tr Pending)).
    stp (cursor_call_eq _ (mkWorld th hp st (app tr (log_tail (mkWorld th hp st tr Pending) _)) Pending)).
    rewrite (store_step_cursor_count st hp _ Hno). cbn [fst snd].
    stp (cursor_call_eq _ _).
    rewrite store_step_cursor_array by (intros c0; apply Hno). cbn [fst snd].
    unfold then_catch, swallow, try_catch. cbn -[freeze].
    reflexivity. }
    reflexivity.
  - intros n Hn. subst docs. rewrite Hn. unfold apply_limit. simpl.
    rewrite length_firstn. lia.
  - intros Hord n Hn. subst docs. rewrite Hn. unfold apply_limit. simpl.
    rewrite length_firstn. f_equal.
    destruct (ch_offset c); simpl; rewrite ?length_skipn, Hord; reflexivity.
Qed.

Lemma find_total_ignores_paging_witness :
  exists docs,
  snd (chain_exec (chain_limit ex_chain (VNum 3)) (ex_world (Some "users") (ex_store no_fail ten_docs))) =
  inr (OPromise (Fulfilled (VObj [("total", VNum 10); ("docs", VArr docs)]))) /\
  List.length docs = 3.
Proof.
  destruct (find_total_ignores_paging (chain_limit ex_chain (VNum 3))
              (ex_world (Some "users") (ex_store no_fail ten_docs))
              ltac:(vm_compute; discriminate) (fun _ => eq_refl)
              ltac:(intros u; vm_compute; discriminate)) as [E [_ L]].
  eexists. split; [rewrite E; reflexivity|].
  rewrite (L (fun _ _ => eq_refl) 3%positive eq_refl). vm_compute. reflexivity.
Defined.

(** With [limit(0)] the page holds all ten matching documents. *)
Lemma find_limit_zero_returns_all :
  let w := ex_world (Some "users") (ex_store no_fail ten_docs) in
  match find (VObj []) VUndef VUndef VUndef VUndef VUndef w with
  | (w1, inr (OChain c)) =>
      snd (chain_exec (chain_limit c (VNum 0)) w1) =
      inr (OPromise (Fulfilled (VObj [("total", VNum 10); ("docs", VArr ten_docs)])))
  | _ => False
  end.
Proof. vm_compute. reflexivity. Qed.

Lemma log_count_app a b : log_count (app a b) = log_count a + log_count b.
Proof. induction a as [|[c|r] a IH]; simpl; lia. Qed.

Lemma call_result_logs t c g w :
  w_promise w = Pending ->
  log_count (w_trace (call_result t c g w)) =
  log_count (w_trace w) + (if settled (w_promise (call_result t c g w)) && logs_to w then 1 else 0).
Proof.
  intros Hp. unfold call_result.
  destruct (store_step (w_store w) (w_heap w) c) as [s' [v|e]].
  - cbn [w_trace w_promise settled andb]. rewrite !log_count_app. unfold log_tail, logs_to.
    cbn [w_this w_trace]. destruct (f_debugger (w_this w)) as [|[|]]; simpl; lia.
  - destruct (is_nullish e).
    + cbn [w_trace w_promise]. rewrite Hp, log_count_app. simpl. lia.
    + cbn [w_trace w_promise settled andb]. rewrite !log_count_app. unfold log_tail, logs_to.
      cbn [w_this w_trace]. destruct (f_debugger (w_this w)) as [|[|]]; simpl; lia.
Qed.

(** C4. For the operations that settle through their store call ([insertOne],
    [findOne], [findOneById], [findOneAndUpdate], [updateOne], [removeOne],
    [count], with a handle and [record_ready] arguments) the instrumentation
    never throws, and exactly one record reaches a sink with [log] when the
    promise resolves or rejects, none when it stays pending or when no such
    sink is installed. *)
Theorem single_doc_one_record (o : crud_op) (w : world) :
  f_collection (w_this w) <> None -> record_ready w o ->
  exists p, snd (run_op o w) = inr (OPromise p) /\ w_promise (fst (run_op o w)) = p /\
  log_count (w_trace (fst (run_op o w))) =
    log_count (w_trace w) + (if settled p && logs_to w then 1 else 0).
Proof.
  intros Hc Hr. destruct (f_collection (w_this w)) as [cn|] eqn:Ec; [|congruence].
  destruct o; simpl in Hr; cbn [run_op].
  - destruct data as [| | | | | | | | l |]; try destruct Hr.
    destruct (insertOne_run l options w ltac:(congruence) Hr) as [tail [p [E [Hl _]]]].
    rewrite E. exists p. cbn [fst snd w_promise w_trace]. split; [reflexivity|]. split; [reflexivity|].
    rewrite log_count_app. cbn [log_count]. rewrite Hl. reflexivity.
  - destruct Hr as [H1 H2]. destruct (findOne_run query options w cn Ec H1 H2) as [m E].
    rewrite E. cbv zeta. cbn [fst snd]. eexists. split; [reflexivity|]. split; [reflexivity|].
    rewrite call_result_logs by reflexivity. reflexivity.
  - destruct Hr as [H1 H2]. destruct (findOneById_run id options w cn Ec H1 H2) as [m E].
    rewrite E. cbv zeta. cbn [fst snd]. eexists. split; [reflexivity|]. split; [reflexivity|].
    rewrite call_result_logs by reflexivity. reflexivity.
  - destruct Hr as [H0 [H1 [H2 H3]]].
    destruct (findOneAndUpdate_run filter update options w cn Ec H0 H1 H2 H3) as [m E].
    rewrite E. cbv zeta. cbn [fst snd]. eexists. split; [reflexivity|]. split; [reflexivity|].
    rewrite call_result_logs by reflexivity. reflexivity.
  - destruct Hr as [H1 [H2 H3]]. destruct (updateOne_run filter data options w cn Ec H1 H2 H3) as [m E].
    rewrite E. cbv zeta. cbn [fst snd]. eexists. split; [reflexivity|]. split; [reflexivity|].
    rewrite call_result_logs by reflexivity. reflexivity.
  - destruct Hr as [H1 H2]. destruct (removeOne_run filter options w cn Ec H1 H2) as [m E].
    rewrite E. cbv zeta. cbn [fst snd]. eexists. split; [reflexivity|]. split; [reflexivity|].
    rewrite call_result_logs by reflexivity. reflexivity.
  - destruct Hr as [H1 H2]. destruct (count_run filter options w cn Ec H1 H2) as [m E].
    rewrite E. cbv zeta. cbn [fst snd]. eexists. split; [reflexivity|]. split; [reflexivity|].
    rewrite call_result_logs by reflexivity. reflexivity.
  - destruct Hr.
Qed.

Lemma single_doc_one_record_witness :
  let w := ex_world (Some "users") (ex_store no_fail []) in
  exists p, snd (run_op (OpInsertOne (VRef 4) VUndef) w) = inr (OPromise p) /\
  w_promise (fst (run_op (OpInsertOne (VRef 4) VUndef) w)) = p /\
  log_count (w_trace (fst (run_op (OpInsertOne (VRef 4) VUndef) w))) =
    log_count (w_trace w) + (if settled p && logs_to w then 1 else 0).
Proof.
  apply single_doc_one_record; [vm_compute; discriminate | intros u; vm_compute; discriminate].
Defined.

(** Not every operation delivers exactly one record: a [find] whose cursor
    fails delivers two ([stop], then [error]), and [ensureIndexes] none. *)
Lemma find_failure_two_records :
  (let w := ex_world (Some "users") (ex_store (cursor_fails (VErr DriverError (VStr "cursor failed") VUndef)) []) in
   match find (VObj []) VUndef VUndef VUndef VUndef VUndef w with
   | (w1, inr (OChain c)) =>
       let (w2, r) := chain_exec c w1 in
       log_count (w_trace w2) = 2 /\
       r = inr (OPromise (Rejected (VErr DriverError (VStr "cursor failed") VUndef)))
   | _ => False
   end) /\
  (let w := ex_world (Some "users") (ex_store no_fail []) in
   log_count (w_trace (fst (ensureIndexes VUndef w))) = 0 /\
   snd (ensureIndexes VUndef w) = inr (OPromise (Fulfilled (VArr [VStr "b"])))).
Proof. split; vm_compute; split; reflexivity. Qed.

Lemma ensureIndexes_reconciles_witness :
  w_trace (fst (ensureIndexes VUndef (ex_world (Some "users") (ex_store no_fail [])))) =
  [EvStore (SIndexExists (VStr "a")); EvStore (SIndexExists (VStr "b"));
   EvStore (SCreateIndex (VStr "f") (VRef 3))].
Proof.
  pose proof (ensureIndexes_reconciles VUndef
                [mkDecl VUndef (VRef 2) "a"; mkDecl (VStr "f") (VRef 3) "b"]
                (ex_world (Some "users") (ex_store no_fail []))
                ltac:(vm_compute; discriminate) eq_refl (fun _ => eq_refl)) as H.
  destruct (ensureIndexes VUndef (ex_world (Some "users") (ex_store no_fail []))) as [w1 r1].
  destruct H as [Ht _]. simpl fst. rewrite Ht. reflexivity.
Defined.

Lemma crud_without_handle_witness :
  let w := ex_world None (ex_store no_fail []) in
  exists e, is_type_error e /\
  (snd (run_op (OpInsertOne (VRef 4) VUndef) w) = inr (OPromise (Rejected e)) \/
   (has_sync_prefix (OpInsertOne (VRef 4) VUndef) = true /\
    snd (run_op (OpInsertOne (VRef 4) VUndef) w) = inr (OThrow e))).
Proof. exact (proj2 (crud_without_handle (OpInsertOne (VRef 4) VUndef) (ex_world None (ex_store no_fail [])) eq_refl)). Defined.

(** Before [init()] (no handle), [insertOne] returns a promise rejected with
    a [TypeError] rather than throwing [NO_COLLECTION_NAME]. *)
Lemma insertOne_without_handle_rejects :
  snd (insertOne (VRef 4) VUndef (ex_world None (ex_store no_fail []))) =
  inr (OPromise (Rejected (type_error "insertOne"))).
Proof. vm_compute. reflexivity. Qed.

(** * Further properties of the facade *)

(** A single-call operation on an initialised model with serializable
    arguments: one timer, one store call on the (possibly updated) heap, and
    the returned promise is the one that call settles. *)
Lemma single_run (o : crud_op) (w : world) (c : store_call) :
  f_collection (w_this w) <> None -> single_ready w o -> single_call (w_heap w) o = Some c ->
  exists msg,
  let t := mkTimer "mongo" (single_name o) (st_clock (w_store w)) msg in
  let w0 := mkWorld (w_this w) (single_heap (w_heap w) o) (w_store w) (w_trace w) Pending in
  run_op o w = (call_result t c (single_result o) w0,
                inr (OPromise (w_promise (call_result t c (single_result o) w0)))).
Proof.
  intros Hc Hr Hs. destruct (f_collection (w_this w)) as [cn|] eqn:Ec; [|congruence].
  destruct o; simpl in Hr, Hs; try contradiction; injection Hs as <-; cbn [run_op].
  - destruct Hr as [H1 H2]. destruct (findOne_run query options w cn Ec H1 H2) as [m E]. exists m. exact E.
  - destruct Hr as [H1 H2]. destruct (findOneById_run id options w cn Ec H1 H2) as [m E]. exists m. exact E.
  - destruct Hr as [H0 [H1 [H2 H3]]].
    destruct (findOneAndUpdate_run filter update options w cn Ec H0 H1 H2 H3) as [m E]. exists m. exact E.
  - destruct Hr as [H1 [H2 H3]]. destruct (updateOne_run filter data options w cn Ec H1 H2 H3) as [m E].
    exists m. exact E.
  - destruct Hr as [H1 H2]. destruct (removeOne_run filter options w cn Ec H1 H2) as [m E]. exists m. exact E.
  - destruct Hr as [H1 H2]. destruct (count_run filter options w cn Ec H1 H2) as [m E]. exists m. exact E.
Qed.

(** X1. When the store answers a single-call operation, the returned promise
    is fulfilled with [single_result]: the answer, [null] for a falsy
    document of [findOne]/[findOneById], and [data] for [updateOne]. *)
Theorem single_store_answer (o : crud_op) (w : world) (c : store_call) (v : jsval) :
  f_collection (w_this w) <> None -> single_ready w o -> single_call (w_heap w) o = Some c ->
  snd (store_step (w_store w) (single_heap (w_heap w) o) c) = Ok v ->
  snd (run_op o w) = inr (OPromise (Fulfilled (single_result o v))).
Proof.
  intros Hc Hr Hs Hv. destruct (single_run o w c Hc Hr Hs) as [m E]. rewrite E. cbn [snd].
  unfold call_result. cbn [w_store w_heap].
  destruct (store_step (w_store w) (single_heap (w_heap w) o) c) as [s' r]. cbn [snd] in Hv. subst r.
  reflexivity.
Qed.

(** X2. When the store fails a single-call operation with [e], the promise is
    rejected with [e] and exactly one error record is logged (if a logging
    debugger is set); a nullish [e] leaves the promise pending and logs
    nothing. *)
Theorem single_store_rejection (o : crud_op) (w : world) (c : store_call) (e : jsval) :
  f_collection (w_this w) <> None -> single_ready w o -> single_call (w_heap w) o = Some c ->
  snd (store_step (w_store w) (single_heap (w_heap w) o) c) = Err e ->
  snd (run_op o w) = inr (OPromise (if is_nullish e then Pending else Rejected e)) /\
  log_count (w_trace (fst (run_op o w))) =
    log_count (w_trace w) + (if negb (is_nullish e) && logs_to w then 1 else 0).
Proof.
  intros Hc Hr Hs He. destruct (single_run o w c Hc Hr Hs) as [m E]. rewrite E. cbn [snd fst].
  unfold call_result. cbn [w_store w_heap w_this w_trace w_promise].
  destruct (store_step (w_store w) (single_heap (w_heap w) o) c) as [s' r]. cbn [snd] in He. subst r.
  destruct (is_nullish e); cbn [w_promise w_trace negb andb].
  - split; [reflexivity|]. rewrite log_count_app. simpl. lia.
  - split; [reflexivity|]. rewrite !log_count_app. unfold log_tail, logs_to. cbn [w_this].
    destruct (f_debugger (w_this w)) as [|[|]]; simpl; lia.
Qed.

(** Two single-call operations making the same store call, on the same heap,
    with the same timer name and result mapping, differ only in their
    timer messages. *)
Lemma single_runs_agree (o1 o2 : crud_op) (w : world) (c : store_call) :
  f_collection (w_this w) <> None -> single_ready w o1 -> single_ready w o2 ->
  single_call (w_heap w) o1 = Some c -> single_call (w_heap w) o2 = Some c ->
  single_heap (w_heap w) o1 = single_heap (w_heap w) o2 ->
  single_name o1 = single_name o2 -> single_result o1 = single_result o2 ->
  let w1 := fst (run_op o1 w) in
  let w2 := fst (run_op o2 w) in
  snd (run_op o1 w) = snd (run_op o2 w) /\
  w_this w1 = w_this w2 /\ w_heap w1 = w_heap w2 /\ w_store w1 = w_store w2 /\
  w_promise w1 = w_promise w2 /\ map erase_message (w_trace w1) = map erase_message (w_trace w2).
Proof.
  intros Hc H1 H2 S1 S2 Hh Hn Hg w1 w2. subst w1 w2.
  destruct (single_run o1 w c Hc H1 S1) as [m1 E1].
  destruct (single_run o2 w c Hc H2 S2) as [m2 E2].
  rewrite E1, E2. cbn [fst snd]. rewrite <- Hh, <- Hn, <- Hg.
  destruct (call_result_erase "mongo" (single_name o1) (st_clock (w_store w)) m1 m2 c (single_result o1)
              (mkWorld (w_this w) (single_heap (w_heap w) o1) (w_store w) (w_trace w) Pending))
    as [Ht [Hhp [Hst [Hp Hl]]]].
  rewrite Hp. repeat split; assumption.
Qed.

(** X3. The [options] of [updateOne] only reach the debug message: with a
    handle and serializable arguments, two runs that differ in [options]
    agree on everything else. *)
Theorem updateOne_options_dropped (filter data o1 o2 : jsval) (w : world) :
  f_collection (w_this w) <> None ->
  json_ok (w_heap w) filter -> json_ok (w_heap w) data ->
  json_ok (w_heap w) o1 -> json_ok (w_heap w) o2 ->
  let w1 := fst (updateOne filter data o1 w) in
  let w2 := fst (updateOne filter data o2 w) in
  snd (updateOne filter data o1 w) = snd (updateOne filter data o2 w) /\
  w_this w1 = w_this w2 /\ w_heap w1 = w_heap w2 /\ w_store w1 = w_store w2 /\
  w_promise w1 = w_promise w2 /\ map erase_message (w_trace w1) = map erase_message (w_trace w2).
Proof.
  intros Hc Hf Hd H1 H2.
  exact (single_runs_agree (OpUpdateOne filter data o1) (OpUpdateOne filter data o2) w _ Hc
           (conj Hf (conj Hd H1)) (conj Hf (conj Hd H2)) eq_refl eq_refl eq_refl eq_refl eq_refl).
Qed.

(** X4. The [options] of [removeOne] only reach the debug message: with a
    handle and serializable arguments, two runs that differ in [options]
    agree on everything else. *)
Theorem removeOne_options_dropped (filter o1 o2 : jsval) (w : world) :
  f_collection (w_this w) <> None ->
  json_ok (w_heap w) filter -> json_ok (w_heap w) o1 -> json_ok (w_heap w) o2 ->
  let w1 := fst (removeOne filter o1 w) in
  let w2 := fst (removeOne filter o2 w) in
  snd (removeOne filter o1 w) = snd (removeOne filter o2 w) /\
  w_this w1 = w_this w2 /\ w_heap w1 = w_heap w2 /\ w_store w1 = w_store w2 /\
  w_promise w1 = w_promise w2 /\ map erase_message (w_trace w1) = map erase_message (w_trace w2).
Proof.
  intros Hc Hf H1 H2.
  exact (single_runs_agree (OpRemoveOne filter o1) (OpRemoveOne filter o2) w _ Hc
           (conj Hf H1) (conj Hf H2) eq_refl eq_refl eq_refl eq_refl eq_refl).
Qed.

(** X5. The [options] of [count] only reach the debug message: with a
    handle and serializable arguments, two runs that differ in [options]
    agree on everything else. *)
Theorem count_options_dropped (filter o1 o2 : jsval) (w : world) :
  f_collection (w_this w) <> None ->
  json_ok (w_heap w) filter -> json_ok (w_heap w) o1 -> json_ok (w_heap w) o2 ->
  let w1 := fst (count filter o1 w) in
  let w2 := fst (count filter o2 w) in
  snd (count filter o1 w) = snd (count filter o2 w) /\
  w_this w1 = w_this w2 /\ w_heap w1 = w_heap w2 /\ w_store w1 = w_store w2 /\
  w_promise w1 = w_promise w2 /\ map erase_message (w_trace w1) = map erase_message (w_trace w2).
Proof.
  intros Hc Hf H1 H2.
  exact (single_runs_agree (OpCount filter o1) (OpCount filter o2) w _ Hc
           (conj Hf H1) (conj Hf H2) eq_refl eq_refl eq_refl eq_refl eq_refl).
Qed.

Lemma call_result_heap t c g w : w_heap (call_result t c g w) = w_heap w.
Proof.
  unfold call_result. destruct (store_step (w_store w) (w_heap w) c) as [s' [v|e]];
    [|destruct (is_nullish e)]; reflexivity.
Qed.

Lemma heap_get_upd_other h l l' o : l' <> l -> heap_get (heap_upd h l o) l' = heap_get h l'.
Proof.
  unfold heap_get. revert l l'. induction h as [|o' h IH]; intros [|l] [|l'] Hl; simpl; auto; try lia.
  all: try (apply IH; lia).
Qed.

(** X6. Given an options object lacking [returnOriginal], [findOneAndUpdate]
    sets it to [false] in the caller's object (in place), leaves its other
    keys and the rest of the heap alone, and passes that object to the
    store. *)
Theorem findOneAndUpdate_defaults_returnOriginal (filter update : jsval) (l : nat) (w : world) :
  f_collection (w_this w) <> None ->
  single_ready w (OpFindOneAndUpdate filter update (VRef l)) ->
  l < List.length (w_heap w) ->
  let h := w_heap w in
  let h' := w_heap (fst (findOneAndUpdate filter update (VRef l) w)) in
  lookup_prop "returnOriginal" (heap_get h' l) =
    (match lookup_prop "returnOriginal" (heap_get h l) with VUndef => VBool false | v => v end) /\
  (forall k, k <> "returnOriginal" -> lookup_prop k (heap_get h' l) = lookup_prop k (heap_get h l)) /\
  (forall l', l' <> l -> heap_get h' l' = heap_get h l') /\
  In (EvStore (SFindOneAndUpdate filter update (VRef l))) (w_trace (fst (findOneAndUpdate filter update (VRef l) w))).
Proof.
  intros Hc Hr Hl h h'. unfold h.
  destruct (single_run (OpFindOneAndUpdate filter update (VRef l)) w _ Hc Hr eq_refl) as [m E].
  cbn [run_op] in E. unfold h'. rewrite E. cbn [fst]. rewrite call_result_heap. cbn [w_heap single_heap].
  unfold fau_options. cbn [truthy negb fst snd].
  destruct (lookup_prop "returnOriginal" (heap_get (w_heap w) l)) eqn:Er; cbn [fst];
    try (split; [reflexivity|]; split; [reflexivity|]; split; [reflexivity|]).
  all: try (unfold call_result; destruct (store_step _ _ _) as [s' [v|e]];
            [|destruct (is_nullish e)]; cbn [w_trace]; rewrite ?in_app_iff; simpl; tauto).
  rewrite heap_get_upd by exact Hl. rewrite lookup_set_same.
  split; [reflexivity|]. split.
  - intros k Hk. rewrite lookup_set_other by congruence. reflexivity.
  - split.
    + intros l' Hl'. apply heap_get_upd_other. exact Hl'.
    + unfold call_result. destruct (store_step _ _ _) as [s' [v|e]];
        [|destruct (is_nullish e)]; cbn [w_trace]; rewrite ?in_app_iff; simpl; tauto.
Qed.

(** X7. A truthy primitive [options] (a boolean, number or string) makes
    [findOneAndUpdate] throw a [TypeError] synchronously, before any store
    call or record. *)
Theorem findOneAndUpdate_primitive_options_throw (filter update options : jsval) (w : world) :
  truthy options = true ->
  (exists b, options = VBool b) \/ (exists z, options = VNum z) \/ (exists s, options = VStr s) ->
  exists e, is_type_error e /\ findOneAndUpdate filter update options w = (w, inr (OThrow e)).
Proof.
  intros Ht Hp. exists (type_error "returnOriginal"). split; [eexists; reflexivity|].
  unfold findOneAndUpdate, run_sync, try_catch.
  stp (createTimer_eq "findOneAndUpdate" w). rewrite Ht. cbn [negb].
  destruct Hp as [[b ->] | [[z ->] | [s ->]]]; reflexivity.
Qed.

(** X8. A cyclic [filter] makes [count] and [removeOne] throw the
    [JSON.stringify] error synchronously, with nothing else done. *)
Theorem cyclic_filter_throws_sync (filter options : jsval) (w : world) (u : unit) :
  json_stringify (w_heap w) filter = Some (inl u) ->
  count filter options w = (w, inr (OThrow cycle_error)) /\
  removeOne filter options w = (w, inr (OThrow cycle_error)).
Proof.
  intros Hj. split.
  - unfold count, run_sync, try_catch. stp (createTimer_eq "count" w).
    unfold bind at 1, json. rewrite Hj. reflexivity.
  - unfold removeOne, run_sync, try_catch. stp (createTimer_eq "findOne" w).
    unfold bind at 1, json. rewrite Hj. reflexivity.
Qed.

(** X9. A cyclic first argument makes [findOne], [updateOne] and
    [findOneById] return a promise rejected with the [JSON.stringify] error,
    with nothing else done. *)
Theorem cyclic_argument_rejects (x y options : jsval) (w : world) (u : unit) :
  json_stringify (w_heap w) x = Some (inl u) ->
  findOne x options w = (set_promise w (Rejected cycle_error), inr (OPromise (Rejected cycle_error))) /\
  updateOne x y options w = (set_promise w (Rejected cycle_error), inr (OPromise (Rejected cycle_error))) /\
  findOneById x options w = (set_promise w (Rejected cycle_error), inr (OPromise (Rejected cycle_error))).
Proof.
  intros Hj. destruct w as [th hp st tr pr]. simpl in Hj.
  repeat split;
    [unfold findOne | unfold updateOne | unfold findOneById];
    (apply (run_promise_throw _ _ (mkWorld th hp st tr Pending)); [|reflexivity]);
    cbn [set_promise w_this w_heap w_store w_trace w_promise];
    (stp (createTimer_eq _ (mkWorld th hp st tr Pending)));
    apply bind_inl; unfold json; simpl; rewrite Hj; reflexivity.
Qed.

(** X10. [insertOne(null)] and [insertOne(undefined)] return a promise
    rejected with a [TypeError] (reading [data.id]), with nothing else done. *)
Theorem insertOne_nullish_data (data options : jsval) (w : world) :
  is_nullish data = true ->
  insertOne data options w = (set_promise w (Rejected (type_error "id")), inr (OPromise (Rejected (type_error "id")))).
Proof.
  intros Hn. destruct w as [th hp st tr pr].
  unfold insertOne. apply (run_promise_throw _ _ (mkWorld th hp st tr Pending)); [|reflexivity].
  cbn [set_promise w_this w_heap w_store w_trace w_promise].
  stp (createTimer_eq "insertOne" (mkWorld th hp st tr Pending)).
  rewrite bind_get_eq, Hn. reflexivity.
Qed.

(** X11. With no declared indexes ([_indexes] null or empty), [ensureIndexes]
    resolves with [[]] without touching the store. *)
Theorem ensureIndexes_nothing_declared (options : jsval) (w : world) :
  declared_indexes (w_this w) = [] ->
  ensureIndexes options w =
    (set_promise w (Fulfilled (VArr [])), inr (OPromise (Fulfilled (VArr [])))).
Proof.
  intros Hd. destruct w as [[cn ixs coll dbg] hp st tr pr].
  unfold declared_indexes in Hd. simpl in Hd.
  destruct ixs as [ixs|]; [subst ixs|]; reflexivity.
Qed.

(** X12. Before [init()], with indexes declared, [ensureIndexes] rejects with
    a [TypeError] and makes no store call. *)
Theorem ensureIndexes_without_handle (options : jsval) (w : world) :
  no_handle w -> declared_indexes (w_this w) <> [] ->
  ensureIndexes options w =
    (set_promise w (Rejected (type_error "indexExists")),
     inr (OPromise (Rejected (type_error "indexExists")))).
Proof.
  intros Hn Hd. destruct w as [[cn ixs coll dbg] hp st tr pr].
  unfold no_handle in Hn. unfold declared_indexes in Hd. simpl in Hn, Hd. subst coll.
  destruct ixs as [[|ix ixs]|]; [congruence | reflexivity | congruence].
Qed.

(** The existence checks: one [indexExists] per declaration, in order. *)
Lemma issue_exists_replies (ixs : list jsval) (ds : list decl) (w : world) :
  f_collection (w_this w) <> None ->
  decls (w_heap w) ixs = Some ds ->
  exists s',
    issue_exists ixs w =
      (mkWorld (w_this w) (w_heap w) s' (app (w_trace w) (map exists_event ds)) (w_promise w),
       inr (map (exists_reply (w_store w)) ds)) /\
    st_indexes s' = st_indexes (w_store w) /\ st_fail s' = st_fail (w_store w).
Proof.
  revert ds w. induction ixs as [|ix ixs IH]; intros ds [f h s tr p] Hc Hd; simpl in *.
  - inversion Hd; subst. exists s. rewrite app_nil_r. auto.
  - destruct (decl_info h ix) as [d|] eqn:Ed; [|discriminate].
    destruct (decls h ixs) as [ds'|] eqn:Eds; [|discriminate].
    inversion Hd; subst ds; clear Hd.
    destruct (f_collection f) as [coll|] eqn:Ecoll; [|congruence].
    unfold decl_info in Ed.
    destruct ix as [| | | | | | | |a|]; try discriminate.
    destruct (lookup_prop "options" (heap_get h a)) as [| | | | | | | |b|] eqn:Eo; try discriminate.
    destruct (lookup_prop "name" (heap_get h b)) as [| | | |n| | | | |] eqn:En; try discriminate.
    inversion Ed; subst d; clear Ed.
    unfold bind at 1, coll_check at 1. simpl. rewrite Ecoll.
    unfold bind at 1, get at 1. simpl. rewrite Eo.
    unfold bind at 1, get at 1. simpl. rewrite En.
    unfold bind at 1, coll_call at 1. simpl. rewrite Ecoll.
    set (s1 := st_with s (st_docs s) (st_indexes s)).
    assert (Hs : store_step s h (SIndexExists (VStr n)) =
                 (s1, exists_reply s (mkDecl (lookup_prop "fields" (heap_get h a)) (VRef b) n))).
    { unfold store_step, exists_reply. simpl. destruct (st_fail s (SIndexExists (VStr n))); reflexivity. }
    rewrite Hs. unfold emit. simpl.
    destruct (IH ds' (mkWorld f h s1 (app tr [EvStore (SIndexExists (VStr n))]) p))
      as [s' [Heq [Hi Hfl]]]; simpl; [congruence | assumption |].
    unfold bind at 1. simpl in Heq. rewrite Heq.
    exists s'. simpl. unfold s1 in *; simpl in *. rewrite Hi, Hfl.
    repeat split; auto. f_equal. f_equal. rewrite <- app_assoc. reflexivity.
Qed.

Lemma all_replies_first_err (rs : list reply) (e0 : jsval) :
  In (Err e0) rs -> exists e, all_replies rs = Err e /\ In (Err e) rs.
Proof.
  induction rs as [|[v|e] rs IH]; simpl; intros H.
  - contradiction.
  - destruct H as [H|H]; [discriminate|].
    destruct (IH H) as [e [E Hin]]. rewrite E. eauto.
  - eauto.
Qed.

(** X13. If an existence check fails, [ensureIndexes] rejects with the error
    of a failing check after issuing all the checks, and creates no index. *)
Theorem ensureIndexes_check_failure (options : jsval) (ds : list decl) (w : world) (d : decl) (e0 : jsval) :
  f_collection (w_this w) <> None ->
  decls (w_heap w) (declared_indexes (w_this w)) = Some ds ->
  In d ds -> st_fail (w_store w) (SIndexExists (VStr (d_name d))) = Some e0 ->
  exists s' e,
    ensureIndexes options w =
      (mkWorld (w_this w) (w_heap w) s' (app (w_trace w) (map exists_event ds)) (Rejected e),
       inr (OPromise (Rejected e))) /\
    exists d', In d' ds /\ st_fail (w_store w) (SIndexExists (VStr (d_name d'))) = Some e.
Proof.
  intros Hc Hd Hin Hf.
  destruct (all_replies_first_err (map (exists_reply (w_store w)) ds) e0) as [e [Ea Hea]].
  { apply in_map_iff. exists d. split; [|exact Hin]. unfold exists_reply. now rewrite Hf. }
  destruct w as [f h s tr p0]. unfold declared_indexes in Hd. simpl in *.
  unfold ensureIndexes, run_sync, promise, new_promise, try_catch.
  unfold bind at 2, bind at 1, get_world. simpl.
  destruct (f_indexes f) as [ixs|] eqn:Ei.
  - destruct (issue_exists_replies ixs ds (mkWorld f h s tr Pending)) as [s1 [He _]];
      simpl; auto.
    unfold set_promise. simpl. simpl in He. rewrite (bind_inr _ _ _ _ _ He). rewrite Ea.
    exists s1, e. split.
    + reflexivity.
    + apply in_map_iff in Hea. destruct Hea as [d' [Hd' Hin']]. exists d'. split; [exact Hin'|].
      unfold exists_reply in Hd'. destruct (st_fail s (SIndexExists (VStr (d_name d')))); congruence.
  - injection Hd as <-. contradiction.
Qed.

(** The creations: one [createIndex] per missing declaration, in order. *)
Lemma issue_creates_replies (idx : list string) (ixs : list jsval) (ds : list decl) (w : world) :
  f_collection (w_this w) <> None ->
  decls (w_heap w) ixs = Some ds ->
  let missing := filter (fun d => negb (has_index idx d)) ds in
  exists s' rs,
    issue_creates ixs (map (fun d => VBool (has_index idx d)) ds) w =
      (mkWorld (w_this w) (w_heap w) s' (app (w_trace w) (map create_event missing)) (w_promise w),
       inr rs) /\
    Forall2 (fun d r => forall e, create_failure (w_store w) d = Some e <-> r = Err e) missing rs.
Proof.
  revert ds w. induction ixs as [|ix ixs IH]; intros ds [f h s tr p] Hc Hd; simpl in *.
  - inversion Hd; subst. exists s, []. rewrite app_nil_r. simpl. auto.
  - destruct (decl_info h ix) as [d|] eqn:Ed; [|discriminate].
    destruct (decls h ixs) as [ds'|] eqn:Eds; [|discriminate].
    inversion Hd; subst ds; clear Hd.
    destruct (f_collection f) as [coll|] eqn:Ecoll; [|congruence].
    unfold decl_info in Ed.
    destruct ix as [| | | | | | | |a|]; try discriminate.
    destruct (lookup_prop "options" (heap_get h a)) as [| | | | | | | |b|] eqn:Eo; try discriminate.
    destruct (lookup_prop "name" (heap_get h b)) as [| | | |n| | | | |] eqn:En; try discriminate.
    inversion Ed; subst d; clear Ed. simpl.
    destruct (has_index idx (mkDecl (lookup_prop "fields" (heap_get h a)) (VRef b) n)) eqn:Eh;
      simpl.
    + destruct (IH ds' (mkWorld f h s tr p)) as [s' [rs [Heq Hrs]]];
        simpl; [congruence | assumption |].
      exists s', rs. simpl in Heq. rewrite Heq. auto.
    + unfold bind at 1, coll_check at 1. simpl. rewrite Ecoll.
      unfold bind at 1. simpl. unfold bind at 1, get at 1. simpl.
      unfold bind at 1, get at 1. simpl. rewrite Eo.
      unfold bind at 1, coll_call at 1. simpl. rewrite Ecoll.
      unfold store_step at 1.
      destruct (st_fail s (SCreateIndex (lookup_prop "fields" (heap_get h a)) (VRef b))) as [e|] eqn:Ef.
      * set (s1 := st_with s (st_docs s) (st_indexes s)). unfold emit. simpl.
        destruct (IH ds' (mkWorld f h s1
                    (app tr [EvStore (SCreateIndex (lookup_prop "fields" (heap_get h a)) (VRef b))]) p))
          as [s' [rs [Heq Hrs]]]; simpl; [congruence | assumption |].
        unfold bind at 1. simpl in Heq. rewrite Heq.
        exists s', (Err e :: rs). simpl. split.
        -- f_equal. f_equal. rewrite <- app_assoc. reflexivity.
        -- constructor; [|exact Hrs]. intros e'. unfold create_failure. simpl. rewrite Ef.
           split; congruence.
      * rewrite (freeze_ref_str h b "name" n En).
        set (s1 := st_with s (st_docs s) (add_name (st_indexes s) n)).
        change (if existsb (String.eqb n) (st_indexes s) then st_indexes s
                else app (st_indexes s) [n]) with (add_name (st_indexes s) n).
        fold s1. unfold emit. simpl.
        destruct (IH ds' (mkWorld f h s1
                    (app tr [EvStore (SCreateIndex (lookup_prop "fields" (heap_get h a)) (VRef b))]) p))
          as [s' [rs [Heq Hrs]]]; simpl; [congruence | assumption |].
        unfold bind at 1. simpl in Heq. rewrite Heq.
        exists s', (Ok (VStr n) :: rs). simpl. split.
        -- f_equal. f_equal. rewrite <- app_assoc. reflexivity.
        -- constructor; [|exact Hrs]. intros e'. unfold create_failure. simpl. rewrite Ef.
           split; intros Hx; discriminate Hx.
Qed.

Lemma forall2_first_err (missing : list decl) (rs : list reply) (P : decl -> option jsval) (d : decl) (e0 : jsval) :
  Forall2 (fun d r => forall e, P d = Some e <-> r = Err e) missing rs ->
  In d missing -> P d = Some e0 ->
  exists e, all_replies rs = Err e /\ exists d', In d' missing /\ P d' = Some e.
Proof.
  intros H. induction H as [|d1 r rs' ds' Hr H IH]; simpl; intros Hin Hp.
  - contradiction.
  - destruct r as [v|e].
    + destruct Hin as [<-|Hin].
      * apply Hr in Hp. discriminate.
      * destruct (IH Hin Hp) as [e [E [d' [Hd' Hpd']]]]. rewrite E. exists e. split; [reflexivity|]. exists d'. split; [now right | exact Hpd'].
    + exists e. split; [reflexivity|]. exists d1. split; [now left|]. apply Hr. reflexivity.
Qed.

(** X14. If the checks succeed and creating a missing index fails,
    [ensureIndexes] rejects with the error of a failing creation, after
    issuing all the checks and then all the creations. *)
Theorem ensureIndexes_create_failure (options : jsval) (ds : list decl) (w : world) (d : decl) (e0 : jsval) :
  f_collection (w_this w) <> None ->
  decls (w_heap w) (declared_indexes (w_this w)) = Some ds ->
  (forall n, st_fail (w_store w) (SIndexExists n) = None) ->
  let missing := filter (fun d => negb (has_index (st_indexes (w_store w)) d)) ds in
  In d missing -> create_failure (w_store w) d = Some e0 ->
  exists s' e,
    ensureIndexes options w =
      (mkWorld (w_this w) (w_heap w) s'
         (app (w_trace w) (app (map exists_event ds) (map create_event missing))) (Rejected e),
       inr (OPromise (Rejected e))) /\
    exists d', In d' missing /\ create_failure (w_store w) d' = Some e.
Proof.
  intros Hc Hd Hf missing Hin He0.
  destruct w as [f h s tr p0]. unfold declared_indexes in Hd. simpl in *.
  unfold ensureIndexes, run_sync, promise, new_promise, try_catch.
  unfold bind at 2, bind at 1, get_world. simpl.
  destruct (f_indexes f) as [ixs|] eqn:Ei.
  - destruct (issue_exists_spec ixs ds (mkWorld f h s tr Pending)) as [s1 [He [Hi1 [Hf1 Hd1]]]];
      simpl; auto.
    simpl in Hi1, Hf1, Hd1.
    unfold set_promise. simpl. simpl in He. rewrite (bind_inr _ _ _ _ _ He).
    rewrite <- (map_map (fun d => VBool (has_index (st_indexes s) d)) Ok), all_replies_ok.
    unfold then_catch at 1, swallow, try_catch at 1, try_catch at 1.
    unfold array_elems.
    destruct (issue_creates_replies (st_indexes s) ixs ds
                (mkWorld f h s1 (app tr (map exists_event ds)) Pending)) as [s2 [rs [Hc2 Hrs]]];
      simpl; auto.
    simpl in Hc2, Hrs. rewrite (bind_inr _ _ _ _ _ Hc2). fold missing in Hc2, Hrs |- *.
    assert (Hrs' : Forall2 (fun d r => forall e, create_failure s d = Some e <-> r = Err e) missing rs).
    { unfold create_failure in *. rewrite <- Hf1. exact Hrs. }
    destruct (forall2_first_err missing rs (create_failure s) d e0 Hrs' Hin He0) as [e [Ea Hd']].
    destruct rs as [|r rs'].
    + discriminate.
    + rewrite Ea. exists s2, e.
      unfold then_catch, swallow, try_catch, resolve, reject, modify. simpl.
      split; [rewrite app_assoc; reflexivity | exact Hd'].
  - inversion Hd; subst ds. contradiction.
Qed.

(** X15. Before [init()], [aggregate] of a serializable pipeline and options
    delivers its timer's stop record (no error) and then throws a [TypeError]
    synchronously; the store is untouched. *)
Theorem aggregate_without_handle (pipeline options : jsval) (w : world) :
  no_handle w ->
  json_ok (w_heap w) pipeline -> json_ok (w_heap w) options ->
  exists msg dur,
  aggregate pipeline options w =
  (mkWorld (w_this w) (w_heap w) (w_store w)
     (app (w_trace w) (log_tail w (mkRecord "mongo" "aggregate" msg dur None))) (w_promise w),
   inr (OThrow (type_error "aggregate"))).
Proof.
  intros Hn Hp Ho. destruct w as [th hp st tr pr]. unfold no_handle in Hn. simpl in *.
  destruct (json_ok_eq pipeline (mkWorld th hp st tr pr) Hp) as [pj Ep].
  destruct (json_ok_eq options (mkWorld th hp st tr pr) Ho) as [oj Eo].
  eexists. eexists. unfold aggregate, run_sync, try_catch.
  stp (createTimer_eq "aggregate" (mkWorld th hp st tr pr)). stp Ep. stp Eo.
  stp (timer_stop_eq _ (mkWorld th hp st tr pr)).
  unfold bind at 1, coll_call. cbn [w_this]. rewrite Hn.
  unfold stop_record. cbn [tm_category tm_name tm_message tm_start set_message].
  reflexivity.
Qed.

Lemma single_store_answer_witness :
  snd (run_op (OpUpdateOne (VObj []) (VRef 4) VUndef) (ex_world (Some "users") (ex_store no_fail [VObj []]))) =
  inr (OPromise (Fulfilled (VRef 4))).
Proof.
  apply (single_store_answer (OpUpdateOne (VObj []) (VRef 4) VUndef)
           (ex_world (Some "users") (ex_store no_fail [VObj []]))
           (SUpdate (VObj []) (VRef 4) (VObj [])) (VNum 1)).
  - vm_compute; discriminate.
  - repeat split; intros u; vm_compute; discriminate.
  - reflexivity.
  - vm_compute; reflexivity.
Defined.

Lemma single_store_rejection_witness :
  let w := ex_world (Some "users")
             (ex_store (fails_on (fun c => match c with SCount _ => true | _ => false end) (VStr "down")) []) in
  snd (run_op (OpCount (VObj []) VUndef) w) = inr (OPromise (Rejected (VStr "down"))) /\
  log_count (w_trace (fst (run_op (OpCount (VObj []) VUndef) w))) = 1.
Proof.
  apply (single_store_rejection (OpCount (VObj []) VUndef)
           (ex_world (Some "users")
              (ex_store (fails_on (fun c => match c with SCount _ => true | _ => false end) (VStr "down")) []))
           (SCount (VObj [])) (VStr "down")).
  - vm_compute; discriminate.
  - split; intros u; vm_compute; discriminate.
  - reflexivity.
  - vm_compute; reflexivity.
Defined.

Lemma updateOne_options_dropped_witness :
  snd (updateOne (VObj []) (VRef 4) VUndef (ex_world (Some "users") (ex_store no_fail [VObj []]))) =
  snd (updateOne (VObj []) (VRef 4) (VRef 2) (ex_world (Some "users") (ex_store no_fail [VObj []]))).
Proof.
  exact (proj1 (updateOne_options_dropped (VObj []) (VRef 4) VUndef (VRef 2)
                  (ex_world (Some "users") (ex_store no_fail [VObj []]))
                  ltac:(vm_compute; discriminate) ltac:(intros u; vm_compute; discriminate)
                  ltac:(intros u; vm_compute; discriminate) ltac:(intros u; vm_compute; discriminate)
                  ltac:(intros u; vm_compute; discriminate))).
Defined.

Lemma removeOne_options_dropped_witness :
  snd (removeOne (VObj []) VUndef (ex_world (Some "users") (ex_store no_fail [VObj []]))) =
  snd (removeOne (VObj []) (VRef 2) (ex_world (Some "users") (ex_store no_fail [VObj []]))).
Proof.
  exact (proj1 (removeOne_options_dropped (VObj []) VUndef (VRef 2)
                  (ex_world (Some "users") (ex_store no_fail [VObj []]))
                  ltac:(vm_compute; discriminate) ltac:(intros u; vm_compute; discriminate)
                  ltac:(intros u; vm_compute; discriminate) ltac:(intros u; vm_compute; discriminate))).
Defined.

Lemma count_options_dropped_witness :
  snd (count (VObj []) VUndef (ex_world (Some "users") (ex_store no_fail [VObj []]))) =
  snd (count (VObj []) (VRef 2) (ex_world (Some "users") (ex_store no_fail [VObj []]))).
Proof.
  exact (proj1 (count_options_dropped (VObj []) VUndef (VRef 2)
                  (ex_world (Some "users") (ex_store no_fail [VObj []]))
                  ltac:(vm_compute; discriminate) ltac:(intros u; vm_compute; discriminate)
                  ltac:(intros u; vm_compute; discriminate) ltac:(intros u; vm_compute; discriminate))).
Defined.

Lemma findOneAndUpdate_defaults_returnOriginal_witness :
  lookup_prop "returnOriginal"
    (heap_get (w_heap (fst (findOneAndUpdate (VObj []) (VObj []) (VRef 2)
                              (ex_world (Some "users") (ex_store no_fail [VObj []]))))) 2) = VBool false.
Proof.
  pose proof (findOneAndUpdate_defaults_returnOriginal (VObj []) (VObj []) 2
                (ex_world (Some "users") (ex_store no_fail [VObj []]))
                ltac:(vm_compute; discriminate)
                ltac:(split; [right; exists 2; reflexivity|]; repeat split; intros u; vm_compute; discriminate)
                ltac:(vm_compute; lia)) as H.
  cbv zeta in H. destruct H as [H _]. rewrite H. vm_compute. reflexivity.
Defined.

Lemma findOneAndUpdate_primitive_options_throw_witness :
  exists e, is_type_error e /\
  findOneAndUpdate (VObj []) (VObj []) (VBool true) (ex_world (Some "users") (ex_store no_fail [])) =
  (ex_world (Some "users") (ex_store no_fail []), inr (OThrow e)).
Proof.
  apply (findOneAndUpdate_primitive_options_throw (VObj []) (VObj []) (VBool true)
           (ex_world (Some "users") (ex_store no_fail []))).
  - reflexivity.
  - left. exists true. reflexivity.
Defined.

Lemma cyclic_filter_throws_sync_witness :
  let w := mkWorld (ex_facade (Some "users")) cyclic_heap (ex_store no_fail []) [] Pending in
  count (VRef 5) VUndef w = (w, inr (OThrow cycle_error)) /\
  removeOne (VRef 5) VUndef w = (w, inr (OThrow cycle_error)).
Proof.
  apply (cyclic_filter_throws_sync (VRef 5) VUndef
           (mkWorld (ex_facade (Some "users")) cyclic_heap (ex_store no_fail []) [] Pending) tt).
  vm_compute. reflexivity.
Defined.

Lemma cyclic_argument_rejects_witness :
  let w := mkWorld (ex_facade (Some "users")) cyclic_heap (ex_store no_fail []) [] Pending in
  findOne (VRef 5) VUndef w = (set_promise w (Rejected cycle_error), inr (OPromise (Rejected cycle_error))) /\
  updateOne (VRef 5) (VObj []) VUndef w = (set_promise w (Rejected cycle_error), inr (OPromise (Rejected cycle_error))) /\
  findOneById (VRef 5) VUndef w = (set_promise w (Rejected cycle_error), inr (OPromise (Rejected cycle_error))).
Proof.
  apply (cyclic_argument_rejects (VRef 5) (VObj []) VUndef
           (mkWorld (ex_facade (Some "users")) cyclic_heap (ex_store no_fail []) [] Pending) tt).
  vm_compute. reflexivity.
Defined.

Lemma insertOne_nullish_data_witness :
  insertOne VNull VUndef (ex_world (Some "users") (ex_store no_fail [])) =
  (set_promise (ex_world (Some "users") (ex_store no_fail [])) (Rejected (type_error "id")),
   inr (OPromise (Rejected (type_error "id")))).
Proof.
  apply (insertOne_nullish_data VNull VUndef (ex_world (Some "users") (ex_store no_fail []))).
  reflexivity.
Defined.

Lemma ensureIndexes_nothing_declared_witness :
  ensureIndexes VUndef (bare_world (ex_store no_fail [])) =
  (set_promise (bare_world (ex_store no_fail [])) (Fulfilled (VArr [])), inr (OPromise (Fulfilled (VArr [])))).
Proof.
  apply (ensureIndexes_nothing_declared VUndef (bare_world (ex_store no_fail []))).
  reflexivity.
Defined.

Lemma ensureIndexes_without_handle_witness :
  ensureIndexes VUndef (ex_world None (ex_store no_fail [])) =
  (set_promise (ex_world None (ex_store no_fail [])) (Rejected (type_error "indexExists")),
   inr (OPromise (Rejected (type_error "indexExists")))).
Proof.
  apply (ensureIndexes_without_handle VUndef (ex_world None (ex_store no_fail []))).
  - reflexivity.
  - vm_compute. discriminate.
Defined.

Lemma ensureIndexes_check_failure_witness :
  let w := ex_world (Some "users")
             (ex_store (fails_on (fun c => match c with SIndexExists _ => true | _ => false end)
                          (VStr "down")) []) in
  let ds := [mkDecl VUndef (VRef 2) "a"; mkDecl (VStr "f") (VRef 3) "b"] in
  exists s' e,
    ensureIndexes VUndef w =
      (mkWorld (w_this w) (w_heap w) s' (app (w_trace w) (map exists_event ds)) (Rejected e),
       inr (OPromise (Rejected e))) /\
    exists d', In d' ds /\ st_fail (w_store w) (SIndexExists (VStr (d_name d'))) = Some e.
Proof.
  apply (ensureIndexes_check_failure VUndef [mkDecl VUndef (VRef 2) "a"; mkDecl (VStr "f") (VRef 3) "b"]
           (ex_world (Some "users")
              (ex_store (fails_on (fun c => match c with SIndexExists _ => true | _ => false end)
                           (VStr "down")) []))
           (mkDecl VUndef (VRef 2) "a") (VStr "down")).
  - vm_compute. discriminate.
  - vm_compute. reflexivity.
  - left. reflexivity.
  - reflexivity.
Defined.

Lemma ensureIndexes_create_failure_witness :
  let w := ex_world (Some "users")
             (ex_store (fails_on (fun c => match c with SCreateIndex _ _ => true | _ => false end)
                          (VStr "down")) []) in
  let ds := [mkDecl VUndef (VRef 2) "a"; mkDecl (VStr "f") (VRef 3) "b"] in
  let missing := [mkDecl (VStr "f") (VRef 3) "b"] in
  exists s' e,
    ensureIndexes VUndef w =
      (mkWorld (w_this w) (w_heap w) s'
         (app (w_trace w) (app (map exists_event ds) (map create_event missing))) (Rejected e),
       inr (OPromise (Rejected e))) /\
    exists d', In d' missing /\ create_failure (w_store w) d' = Some e.
Proof.
  exact (ensureIndexes_create_failure VUndef [mkDecl VUndef (VRef 2) "a"; mkDecl (VStr "f") (VRef 3) "b"]
           (ex_world (Some "users")
              (ex_store (fails_on (fun c => match c with SCreateIndex _ _ => true | _ => false end)
                           (VStr "down")) []))
           (mkDecl (VStr "f") (VRef 3) "b") (VStr "down")
           ltac:(vm_compute; discriminate) ltac:(vm_compute; reflexivity) (fun _ => eq_refl)
           ltac:(vm_compute; left; reflexivity) eq_refl).
Defined.

Lemma aggregate_without_handle_witness :
  exists msg dur,
  aggregate (VArr []) VUndef (ex_world None (ex_store no_fail [])) =
  (mkWorld (ex_facade None) ex_heap (ex_store no_fail [])
     [EvLog (mkRecord "mongo" "aggregate" msg dur None)] Pending,
   inr (OThrow (type_error "aggregate"))).
Proof.
  exact (aggregate_without_handle (VArr []) VUndef (ex_world None (ex_store no_fail []))
           eq_refl ltac:(intros u; vm_compute; discriminate) ltac:(intros u; vm_compute; discriminate)).
Defined.
